(** * A prefix tree (trie) of strings: model of [prefixtree.py] and its properties

    The Python class [PrefixTree] stores a set of strings along the paths of a
    multi-way tree of [PrefixTreeNode] objects.  The development embeds the
    class method by method and proves the properties its specification
    states about [insert], [contains], [_find_node], [complete], [strings]
    and [_traverse].

    The class is embedded twice.  In the first model a node is the value of
    its subtree and a method is a function on trees; most properties are
    stated of this model.  In the second (module [Store]) a node is an
    object in a store and a method is a computation that reads and writes
    the store, statement by statement as in the source; what a method leaves
    untouched is stated there.  The two models are proved to agree
    ([init_agree], [insert_agree], [queries_agree]).

    Strings are [string]s and their characters [ascii]; the methods do
    nothing with a character but compare it with another. *)

From Stdlib Require Import List String Ascii Bool Arith Lia Permutation Sorted.
Import ListNotations.

Local Open Scope string_scope.
Local Open Scope list_scope.

Set Implicit Arguments.

(** ** Exceptions

    The methods of the tree are written without any [try]; an exception
    raised by a node accessor aborts the running method.  Computations that
    call such accessors live in the [result] monad. *)

Inductive exn : Type :=
| LookupError (c : ascii)   (* get_child on a character with no child *)
| ChildExists (c : ascii)   (* add_child on a character that has a child *)
| RecursionError.           (* a recursion deeper than allowed *)

Inductive result (A : Type) : Type :=
| Ok (a : A)
| Raise (e : exn).

Arguments Ok {A} a.
Arguments Raise {A} e.

Definition bind {A B : Type} (m : result A) (k : A -> result B) : result B :=
  match m with
  | Ok a => k a
  | Raise e => Raise e
  end.

Notation "x <- m ;; k" := (bind m (fun x => k))
  (at level 61, m at next level, right associativity).
Notation "' p <- m ;; k" := (bind m (fun x => match x with p => k end))
  (at level 61, p pattern, m at next level, right associativity).

(** ** Nodes *)

(** Modelled from the spec: the class [PrefixTreeNode] (module
    [prefixtreenode], imported by [prefixtree.py] but not part of the
    sources).  A node holds its [character], the [terminal] flag and the
    [children] dictionary from next character to child node.  The dictionary
    is kept as an association list in insertion order, the order in which a
    Python [dict] enumerates its items; a dictionary has each key once, see
    [wf_node]. *)
#[local] Unset Elimination Schemes.
Inductive PrefixTreeNode : Type :=
  mkNode { character : string;
           terminal : bool;
           children : list (ascii * PrefixTreeNode) }.
#[local] Set Elimination Schemes.

(** [children[c]] as a partial function: the binding of [c], the first one
    should the list have several. *)
Fixpoint lookup {V : Type} (c : ascii) (kids : list (ascii * V)) : option V :=
  match kids with
  | [] => None
  | (k, child) :: kids' => if Ascii.eqb c k then Some child else lookup c kids'
  end.

(** [c in children]. *)
Fixpoint mem {V : Type} (c : ascii) (kids : list (ascii * V)) : bool :=
  match kids with
  | [] => false
  | (k, _) :: kids' => Ascii.eqb c k || mem c kids'
  end.

(** Modelled from the spec: [PrefixTreeNode(character)], a fresh node with no
    children that is not terminal. *)
Definition new_node (character : string) : PrefixTreeNode :=
  mkNode character false [].

(** Modelled from the spec: [is_terminal()] returns the terminal flag. *)
Definition is_terminal (node : PrefixTreeNode) : bool := terminal node.

(** Modelled from the spec: [has_child(c)] is true iff [c] is a key of
    [children]. *)
Definition has_child (c : ascii) (node : PrefixTreeNode) : bool :=
  mem c (children node).

(** Modelled from the spec: [get_child(c)] returns the child for [c]; calling
    it for a character with no child fails with a lookup error. *)
Definition get_child (c : ascii) (node : PrefixTreeNode) : result PrefixTreeNode :=
  match lookup c (children node) with
  | Some child => Ok child
  | None => Raise (LookupError c)
  end.

(** Modelled from the spec: [add_child(c, child)] makes [child] the child for
    [c]; a character that already has a child is rejected rather than
    overwritten.  A new key goes last in the dictionary. *)
Definition add_child (c : ascii) (child : PrefixTreeNode) (node : PrefixTreeNode)
  : result PrefixTreeNode :=
  if has_child c node then Raise (ChildExists c)
  else Ok (mkNode (character node) (terminal node) (children node ++ [(c, child)])).

(** ** In-place mutation

    Python nodes are objects: [insert] walks down the tree and mutates the
    node it has reached, and the change is seen from the root because the
    parent's dictionary holds that very object.  Nodes are values here, so a
    mutated child is written back into its parent, at the position its key
    already has in the dictionary. *)

Fixpoint store {V : Type} (c : ascii) (child : V) (kids : list (ascii * V))
  : list (ascii * V) :=
  match kids with
  | [] => []
  | (k, old) :: kids' =>
      if Ascii.eqb c k then (k, child) :: kids' else (k, old) :: store c child kids'
  end.

Definition store_child (c : ascii) (child : PrefixTreeNode) (node : PrefixTreeNode)
  : PrefixTreeNode :=
  mkNode (character node) (terminal node) (store c child (children node)).

(** [node.terminal = True] *)
Definition set_terminal (node : PrefixTreeNode) : PrefixTreeNode :=
  mkNode (character node) true (children node).

(** ** The tree *)

Record PrefixTree : Type := mkTree { root : PrefixTreeNode; size : nat }.

(** Constant for the start character stored in the root node. *)
Definition START_CHARACTER : string := "".

Definition char_str (c : ascii) : string := String c "".

(** The loop of [_find_node]: [node] and [depth] are the loop variables, the
    [else] branch returns from inside the loop. *)
Fixpoint find_loop (s : string) (node : PrefixTreeNode) (depth : nat)
  : result (PrefixTreeNode * nat) :=
  match s with
  | "" => Ok (node, depth)
  | String char rest =>
      if has_child char node then
        child <- get_child char node ;;
        find_loop rest child (depth + 1)
      else Ok (node, depth)
  end%string.

Definition _find_node (self : PrefixTree) (s : string)
  : result (PrefixTreeNode * nat) :=
  if (String.length s =? 0)%nat then Ok (root self, 0)
  else find_loop s (root self) 0.

Definition contains (self : PrefixTree) (s : string) : result bool :=
  '(node, depth) <- _find_node self s ;;
  if (depth =? String.length s)%nat && is_terminal node then Ok true else Ok false.

(** The loop of [insert] followed by [node.terminal = True], run on the
    subtree at [node]; the result is that subtree after the mutation.  Each
    round looks at [node] as the loop does, and what the rest of the loop
    makes of the child it goes down to is put back under [char]
    ([insert_agree] compares this with the loop run on objects). *)
Fixpoint insert_loop (s : string) (node : PrefixTreeNode) : result PrefixTreeNode :=
  match s with
  | "" => Ok (set_terminal node)
  | String char rest =>
      if has_child char node then
        child <- get_child char node ;;
        child' <- insert_loop rest child ;;
        Ok (store_child char child' node)
      else
        let child_node := new_node (char_str char) in
        node' <- add_child char child_node node ;;
        child' <- insert_loop rest child_node ;;
        Ok (store_child char child' node')
  end%string.

Definition insert (self : PrefixTree) (s : string) : result PrefixTree :=
  already_exists <- contains self s ;;
  root' <- insert_loop s (root self) ;;
  Ok (mkTree root' (if negb already_exists then size self + 1 else size self)).

(** [__init__]: an empty tree, then one [insert] per given string. *)
Fixpoint insert_all (self : PrefixTree) (strings : list string) : result PrefixTree :=
  match strings with
  | [] => Ok self
  | s :: strings' => self' <- insert self s ;; insert_all self' strings'
  end.

Definition empty_tree : PrefixTree := mkTree (new_node START_CHARACTER) 0.

Definition __init__ (strings : option (list string)) : result PrefixTree :=
  match strings with
  | Some l => insert_all empty_tree l
  | None => Ok empty_tree
  end.

Definition is_empty (self : PrefixTree) : bool :=
  if (size self =? 0)%nat then true else false.

(** [_traverse]: depth-first walk calling [visit] at each terminal node.  The
    callback acts on a state [St] of the caller (the list [completions] that
    [completions.append] grows). *)
Fixpoint _traverse {St : Type} (node : PrefixTreeNode) (prefix : string)
  (visit : string -> St -> St) (st : St) : St :=
  match node with
  | mkNode _ term kids =>
      let st1 := if term then visit prefix st else st in
      fold_left
        (fun acc kv => _traverse (snd kv) (prefix ++ char_str (fst kv))%string visit acc)
        kids st1
  end.

(** [list.append], the callback both callers pass. *)
Definition list_append (s : string) (acc : list string) : list string := acc ++ [s].

Definition complete (self : PrefixTree) (prefix : string) : result (list string) :=
  let completions := [] in
  '(node, depth) <- _find_node self prefix ;;
  if (depth =? String.length prefix)%nat
  then Ok (_traverse node prefix list_append completions)
  else Ok completions.

Definition strings (self : PrefixTree) : list string :=
  let all_strings := [] in
  let node := root self in
  let prefix := "" in
  _traverse node prefix list_append all_strings.

(** ** Induction on nodes

    A node nests its children in a list of pairs, so the induction principle
    is written by hand: the property may be assumed of every child. *)

Section NodeInduction.

Variable P : PrefixTreeNode -> Prop.

Hypothesis step : forall ch t kids,
    Forall (fun kv => P (snd kv)) kids -> P (mkNode ch t kids).

Fixpoint PrefixTreeNode_ind (n : PrefixTreeNode) : P n :=
  match n with
  | mkNode ch t kids =>
      step ch t
        ((fix all (l : list (ascii * PrefixTreeNode))
           : Forall (fun kv => P (snd kv)) l :=
            match l with
            | [] => Forall_nil _
            | kv :: l' => Forall_cons kv (PrefixTreeNode_ind (snd kv)) (all l')
            end) kids)
  end.

End NodeInduction.

(** ** Well-formed trees

    A Python [dict] holds each key once.  [wf_node] says so of the
    association list of every node of a subtree. *)

Fixpoint keys_unique {V : Type} (kids : list (ascii * V)) : bool :=
  match kids with
  | [] => true
  | (k, _) :: kids' => negb (mem k kids') && keys_unique kids'
  end.

Fixpoint wf_node (n : PrefixTreeNode) : bool :=
  match n with
  | mkNode _ _ kids => keys_unique kids && forallb (fun kv => wf_node (snd kv)) kids
  end.

Definition wf_tree (t : PrefixTree) : bool := wf_node (root t).

(** ** Paths and stored strings *)

(** [path n s m]: starting at [n], every character of [s] in turn has a
    child edge, and the walk along these edges ends at [m]. *)
Inductive path : PrefixTreeNode -> string -> PrefixTreeNode -> Prop :=
| path_here n : path n "" n
| path_step n c child s m :
    lookup c (children n) = Some child ->
    path child s m ->
    path n (String c s) m.

(** The strings below [node], in the order of a pre-order walk that lists a
    terminal node before its children; each string is [prefix] followed by
    the characters on the way down. *)
Fixpoint words (node : PrefixTreeNode) (prefix : string) : list string :=
  match node with
  | mkNode _ term kids =>
      (if term then [prefix] else []) ++
      flat_map (fun kv => words (snd kv) (prefix ++ char_str (fst kv))%string) kids
  end.

(** [s] is spelled by a path from [node] that ends at a terminal node. *)
Fixpoint accepts (s : string) (node : PrefixTreeNode) : bool :=
  match s with
  | "" => terminal node
  | String c rest =>
      match lookup c (children node) with
      | Some child => accepts rest child
      | None => false
      end
  end%string.

(** [s] extends [p] by at least one character. *)
Definition proper_prefix (p s : string) : Prop :=
  String.prefix p s = true /\ p <> s.

(** [later x y], for [x] listed before [y]: [y] is not a prefix of [x]; in
    particular [y] is not [x] again. *)
Definition later (x y : string) : Prop := String.prefix y x = false.

(** In [l], a string comes before each of its proper extensions. *)
Definition extensions_later (l : list string) : Prop :=
  forall i j s s',
    nth_error l i = Some s -> nth_error l j = Some s' ->
    proper_prefix s s' -> i < j.

(** [p] has a path from [node], wherever it ends. *)
Fixpoint has_path (p : string) (node : PrefixTreeNode) : bool :=
  match p with
  | "" => true
  | String c rest =>
      match lookup c (children node) with
      | Some child => has_path rest child
      | None => false
      end
  end%string.

(** The node [p] leads to from [node], if [p] has a path. *)
Fixpoint descend (p : string) (node : PrefixTreeNode) : option PrefixTreeNode :=
  match p with
  | "" => Some node
  | String c rest =>
      match lookup c (children node) with
      | Some child => descend rest child
      | None => None
      end
  end%string.

(** The number of nodes of a subtree. *)
Fixpoint node_count (node : PrefixTreeNode) : nat :=
  match node with
  | mkNode _ _ kids => S (fold_right (fun kv n => node_count (snd kv) + n) 0 kids)
  end.

(** The length of the longest string of a list. *)
Definition max_length (l : list string) : nat :=
  fold_right (fun s n => Nat.max (String.length s) n) 0 l.

(** The example of the specification. *)
Definition demo : result PrefixTree := __init__ (Some ["ABC"; "ABD"; "A"; "XYZ"]).

(** The tree built from ["ABC"; "ABD"; "A"; "XYZ"]. *)
Definition demo_tree : PrefixTree :=
  Eval vm_compute in
    match demo with Ok t => t | Raise _ => empty_tree end.

(** ** The tree as objects in a store

    The definitions above take a node to be the value of its subtree.  In
    Python a node is an object, a variable holds a reference to it, and a
    method may change any object it can reach.  The second model keeps the
    objects in a store: [heap] lists the node objects, a reference is a
    position in it, and the fields [root] and [size] of the [PrefixTree]
    object complete the state.  Every method is a computation on this state;
    it may read it, change it and raise, and the state it leaves is part of
    its result also when it raises. *)

Module Store.

Definition ref : Type := nat.

(** Modelled from the spec: an object of the class [PrefixTreeNode]; the
    dictionary [children] holds references. *)
Record object : Type :=
  mkObject { character : string;
             terminal : bool;
             children : list (ascii * ref) }.

Record state : Type := mkState { heap : list object; root : ref; size : nat }.

Definition M (A : Type) : Type := state -> result A * state.

Definition ret {A : Type} (a : A) : M A := fun st => (Ok a, st).

Definition raise {A : Type} (e : exn) : M A := fun st => (Raise e, st).

Definition bind {A B : Type} (m : M A) (k : A -> M B) : M B :=
  fun st =>
    match m st with
    | (Ok a, st') => k a st'
    | (Raise e, st') => (Raise e, st')
    end.

Declare Scope store_scope.
Delimit Scope store_scope with store.
Bind Scope store_scope with M.

Notation "x <- m ;; k" := (bind m (fun x => k))
  (at level 61, m at next level, right associativity) : store_scope.
Notation "' p <- m ;; k" := (bind m (fun x => match x with p => k end))
  (at level 61, p pattern, m at next level, right associativity) : store_scope.
Notation "m ;; k" := (bind m (fun _ => k))
  (at level 61, right associativity) : store_scope.

Local Open Scope store_scope.

(** *** Reading and writing objects *)

(** An object that was never allocated reads as a blank one; no reference
    of a Python program is of this kind. *)
Definition blank : object := mkObject "" false [].

Definition read (r : ref) : M object :=
  fun st => (Ok (nth r (heap st) blank), st).

Fixpoint update (r : ref) (o : object) (h : list object) : list object :=
  match h, r with
  | [], _ => []
  | _ :: h', 0 => o :: h'
  | x :: h', S r' => x :: update r' o h'
  end.

Definition write (r : ref) (o : object) : M unit :=
  fun st => (Ok tt, mkState (update r o (heap st)) (root st) (size st)).

Definition alloc (o : object) : M ref :=
  fun st => (Ok (List.length (heap st)),
             mkState (heap st ++ [o]) (root st) (size st)).

(** [self.root], [self.size] and [self.size = n] *)
Definition get_root : M ref := fun st => (Ok (root st), st).

Definition get_size : M nat := fun st => (Ok (size st), st).

Definition set_size (n : nat) : M unit :=
  fun st => (Ok tt, mkState (heap st) (root st) n).

(** *** The accessors of a node *)

(** Modelled from the spec: [PrefixTreeNode(character)]. *)
Definition new_node (character : string) : M ref :=
  alloc (mkObject character false []).

(** Modelled from the spec: [is_terminal()]. *)
Definition is_terminal (node : ref) : M bool :=
  o <- read node ;; ret (terminal o).

(** Modelled from the spec: [has_child(c)]. *)
Definition has_child (node : ref) (c : ascii) : M bool :=
  o <- read node ;; ret (mem c (children o)).

(** Modelled from the spec: [get_child(c)], a lookup error when [c] has no
    child. *)
Definition get_child (node : ref) (c : ascii) : M ref :=
  o <- read node ;;
  match lookup c (children o) with
  | Some child => ret child
  | None => raise (LookupError c)
  end.

(** Modelled from the spec: [add_child(c, child)]. *)
Definition add_child (node : ref) (c : ascii) (child : ref) : M unit :=
  o <- read node ;;
  if mem c (children o) then raise (ChildExists c)
  else write node (mkObject (character o) (terminal o) (children o ++ [(c, child)])).

(** [node.terminal = True] *)
Definition set_terminal (node : ref) : M unit :=
  o <- read node ;; write node (mkObject (character o) true (children o)).

(** [node.children.items()]: the items as they are when the loop starts (no
    method changes a dictionary while it runs over it). *)
Definition items (node : ref) : M (list (ascii * ref)) :=
  o <- read node ;; ret (children o).

(** *** The methods of the tree *)

Fixpoint find_loop (s : string) (node : ref) (depth : nat) : M (ref * nat) :=
  match s with
  | "" => ret (node, depth)
  | String char rest =>
      b <- has_child node char ;;
      if b then
        child <- get_child node char ;;
        find_loop rest child (depth + 1)
      else ret (node, depth)
  end%string.

Definition _find_node (s : string) : M (ref * nat) :=
  if (String.length s =? 0)%nat then
    r <- get_root ;; ret (r, 0)
  else
    node <- get_root ;; find_loop s node 0.

(** [and] asks [is_terminal] only when the depths agree. *)
Definition contains (s : string) : M bool :=
  '(node, depth) <- _find_node s ;;
  if (depth =? String.length s)%nat then
    t <- is_terminal node ;;
    if t then ret true else ret false
  else ret false.

(** The loop of [insert]; it ends with the node the last character leads
    to in the variable [node]. *)
Fixpoint insert_loop (s : string) (node : ref) : M ref :=
  match s with
  | "" => ret node
  | String char rest =>
      b <- has_child node char ;;
      if b then
        child <- get_child node char ;;
        insert_loop rest child
      else
        child_node <- new_node (char_str char) ;;
        add_child node char child_node ;;
        insert_loop rest child_node
  end%string.

Definition insert (s : string) : M unit :=
  already_exists <- contains s ;;
  node <- get_root ;;
  node <- insert_loop s node ;;
  set_terminal node ;;
  if negb already_exists then
    n <- get_size ;; set_size (n + 1)
  else ret tt.

(** A [for] loop over a list with the loop state [acc]. *)
Fixpoint for_each {A St : Type} (body : St -> A -> M St) (l : list A) (acc : St)
  : M St :=
  match l with
  | [] => ret acc
  | a :: l' => acc' <- body acc a ;; for_each body l' acc'
  end.

(** [_traverse].  The store of a tree has no cycle and the recursion ends;
    [fuel] bounds its depth for the stores that have one, where Python
    raises [RecursionError]. *)
Fixpoint _traverse {St : Type} (fuel : nat) (node : ref) (prefix : string)
  (visit : string -> St -> St) (acc : St) : M St :=
  match fuel with
  | 0 => raise RecursionError
  | S fuel' =>
      t <- is_terminal node ;;
      let acc := if t then visit prefix acc else acc in
      kids <- items node ;;
      for_each
        (fun acc kv =>
           _traverse fuel' (snd kv) (prefix ++ char_str (fst kv))%string visit acc)
        kids acc
  end.

Definition complete (fuel : nat) (prefix : string) : M (list string) :=
  let completions := [] in
  '(node, depth) <- _find_node prefix ;;
  if (depth =? String.length prefix)%nat
  then _traverse fuel node prefix list_append completions
  else ret completions.

Definition strings (fuel : nat) : M (list string) :=
  let all_strings := [] in
  node <- get_root ;;
  let prefix := ""%string in
  _traverse fuel node prefix list_append all_strings.

Definition is_empty : M bool :=
  n <- get_size ;;
  if (n =? 0)%nat then ret true else ret false.

Fixpoint insert_all (strings : list string) : M unit :=
  match strings with
  | [] => ret tt
  | s :: strings' => insert s ;; insert_all strings'
  end.

(** The state [__init__] starts from: the root object alone, [size] 0. *)
Definition empty_state : state :=
  mkState [mkObject START_CHARACTER false []] 0 0.

Definition __init__ (strings : option (list string)) : result unit * state :=
  match strings with
  | Some l => insert_all l empty_state
  | None => (Ok tt, empty_state)
  end.

(** A computation that leaves the state as it finds it. *)
Definition frames {A : Type} (m : M A) : Prop := forall st, snd (m st) = st.

(** The terminal flag of the root object. *)
Definition root_terminal (st : state) : bool :=
  terminal (nth (root st) (heap st) blank).

End Store.

(** ** The two models side by side *)

(** [repr h r node]: in the store [h] the object at [r] and the objects below
    it make up the tree [node]. *)
#[local] Unset Elimination Schemes.
Inductive repr (h : list Store.object) : Store.ref -> PrefixTreeNode -> Prop :=
| repr_node r node :
    Store.character (nth r h Store.blank) = character node ->
    Store.terminal (nth r h Store.blank) = terminal node ->
    Forall2 (fun cr cn => fst cr = fst cn /\ repr h (snd cr) (snd cn))
            (Store.children (nth r h Store.blank)) (children node) ->
    repr h r node.
#[local] Set Elimination Schemes.

Definition represents (st : Store.state) (t : PrefixTree) : Prop :=
  repr (Store.heap st) (Store.root st) (root t) /\ Store.size st = size t.

(** The longest path below a node, counted in nodes. *)
Fixpoint height (node : PrefixTreeNode) : nat :=
  match node with
  | mkNode _ _ kids => S (fold_right (fun kv h => Nat.max (height (snd kv)) h) 0 kids)
  end.

(** *** Where the objects of a tree are

    To follow [insert] through the store one has to know which object stands
    for which node.  A [rtree] is a tree of the first model with the
    reference of its object at every node. *)

#[local] Unset Elimination Schemes.
Inductive rtree : Type :=
  RNode { rref : Store.ref;
          rchar : string;
          rterm : bool;
          rkids : list (ascii * rtree) }.
#[local] Set Elimination Schemes.

(** The tree, without the references. *)
Fixpoint erase (rt : rtree) : PrefixTreeNode :=
  match rt with
  | RNode _ ch t kids => mkNode ch t (map (fun kv => (fst kv, erase (snd kv))) kids)
  end.

(** The references of all its objects. *)
Fixpoint refs (rt : rtree) : list Store.ref :=
  match rt with
  | RNode r _ _ kids => r :: flat_map (fun kv => refs (snd kv)) kids
  end.

(** The object of the node at the top. *)
Definition cell (rt : rtree) : Store.object :=
  Store.mkObject (rchar rt) (rterm rt) (map (fun kv => (fst kv, rref (snd kv))) (rkids rt)).

(** [laid h rt]: the store [h] holds at every reference of [rt] the object
    of that node. *)
Fixpoint laid (h : list Store.object) (rt : rtree) : Prop :=
  match rt with
  | RNode r ch t kids =>
      nth_error h r
        = Some (Store.mkObject ch t (map (fun kv => (fst kv, rref (snd kv))) kids)) /\
      fold_right (fun kv rest => laid h (snd kv) /\ rest) True kids
  end.

(** The state holds the tree [rt] and nothing of it twice: each node has an
    object of its own (a parent owns its children, no node is shared). *)
Definition layout (st : Store.state) (rt : rtree) : Prop :=
  laid (Store.heap st) rt /\ NoDup (refs rt) /\ Store.root st = rref rt.

(** What [insert] makes of a tree with references; [next] is the reference
    the next new object gets. *)
Fixpoint rinsert (s : string) (rt : rtree) (next : Store.ref) : rtree * Store.ref :=
  match s with
  | "" => (RNode (rref rt) (rchar rt) true (rkids rt), next)
  | String c rest =>
      match lookup c (rkids rt) with
      | Some child =>
          let (child', next') := rinsert rest child next in
          (RNode (rref rt) (rchar rt) (rterm rt) (store c child' (rkids rt)), next')
      | None =>
          let (child', next') :=
            rinsert rest (RNode next (char_str c) false []) (S next) in
          (RNode (rref rt) (rchar rt) (rterm rt) (rkids rt ++ [(c, child')]), next')
      end
  end%string.

(** The loop of [insert] and the assignment [node.terminal = True] after
    it. *)
Definition insert_walk (s : string) (node : Store.ref) : Store.M unit :=
  Store.bind (Store.insert_loop s node) Store.set_terminal.

Section RtreeInduction.

Variable P : rtree -> Prop.

Hypothesis step : forall r ch t kids,
    Forall (fun kv => P (snd kv)) kids -> P (RNode r ch t kids).

Fixpoint rtree_ind (rt : rtree) : P rt :=
  match rt with
  | RNode r ch t kids =>
      step r ch t
        ((fix all (l : list (ascii * rtree)) : Forall (fun kv => P (snd kv)) l :=
            match l with
            | [] => Forall_nil _
            | kv :: l' => Forall_cons kv (rtree_ind (snd kv)) (all l')
            end) kids)
  end.

End RtreeInduction.

(** [object_le o o']: [o'] is [o] with, at most, the terminal flag set and
    more children at the end of the dictionary. *)
Definition object_le (o o' : Store.object) : Prop :=
  Store.character o' = Store.character o /\
  (Store.terminal o = true -> Store.terminal o' = true) /\
  exists more, Store.children o' = Store.children o ++ more.

(** [heap_le h h']: [h'] has every object of [h], each grown at most as
    [object_le] allows, and maybe new objects after them. *)
Definition heap_le (h h' : list Store.object) : Prop :=
  List.length h <= List.length h' /\
  forall r, r < List.length h ->
            object_le (nth r h Store.blank) (nth r h' Store.blank).

(** The store after the constructor has run on the example. *)
Definition demo_state : Store.state :=
  Eval vm_compute in snd (Store.__init__ (Some ["ABC"; "ABD"; "A"; "XYZ"]%string)).

(** ** The demonstration

    [create_prefix_tree] builds a tree from a list of strings, queries it and
    prints what it finds.  The model returns, in a [report], the values it
    prints in the order it computes them; the text around them is not
    modelled, nor are the lines that print the tree and its root node
    themselves. *)










(** * Proofs *)

(** ** Strings *)

Lemma append_nil_r (s : string) : (s ++ "")%string = s.
Proof. induction s as [|c s IH]; simpl; [reflexivity | now rewrite IH]. Qed.

Lemma append_assoc (a b c : string) :
  ((a ++ b) ++ c)%string = (a ++ (b ++ c))%string.
Proof. induction a as [|x a IH]; simpl; [reflexivity | now rewrite IH]. Qed.

Lemma append_char (p : string) (c : ascii) (r : string) :
  ((p ++ char_str c) ++ r)%string = (p ++ String c r)%string.
Proof. now rewrite append_assoc. Qed.

Lemma append_length (a b : string) :
  String.length (a ++ b) = String.length a + String.length b.
Proof. induction a as [|x a IH]; simpl; [reflexivity | now rewrite IH]. Qed.

Lemma append_inj_l (p a b : string) : (p ++ a)%string = (p ++ b)%string -> a = b.
Proof.
  induction p as [|x p IH]; simpl; intros H; [exact H|].
  injection H as H. now apply IH.
Qed.

Lemma prefix_refl (s : string) : String.prefix s s = true.
Proof.
  induction s as [|c s IH]; simpl; [reflexivity|].
  destruct (ascii_dec c c); [exact IH | congruence].
Qed.

Lemma prefix_append (p r : string) : String.prefix p (p ++ r) = true.
Proof.
  induction p as [|c p IH]; simpl.
  - now destruct r.
  - destruct (ascii_dec c c); [exact IH | congruence].
Qed.

Lemma prefix_inv (p s : string) :
  String.prefix p s = true -> exists r, s = (p ++ r)%string.
Proof.
  revert s. induction p as [|c p IH]; intros s H.
  - exists s. reflexivity.
  - destruct s as [|d s]; simpl in H; [discriminate|].
    destruct (ascii_dec c d) as [->|]; [|discriminate].
    destruct (IH _ H) as [r ->]. now exists r.
Qed.

Lemma prefix_iff (p s : string) :
  String.prefix p s = true <-> exists r, s = (p ++ r)%string.
Proof.
  split; [apply prefix_inv|]. intros [r ->]. apply prefix_append.
Qed.

Lemma prefix_append_l (p a b : string) :
  String.prefix (p ++ a) (p ++ b) = String.prefix a b.
Proof.
  induction p as [|c p IH]; simpl; [reflexivity|].
  destruct (ascii_dec c c); [exact IH | congruence].
Qed.

Lemma prefix_length (p s : string) :
  String.prefix p s = true -> String.length p <= String.length s.
Proof.
  intros H. destruct (prefix_inv _ _ H) as [r ->]. rewrite append_length. lia.
Qed.

Lemma prefix_antisym (a b : string) :
  String.prefix a b = true -> String.prefix b a = true -> a = b.
Proof.
  intros Hab Hba. destruct (prefix_inv _ _ Hab) as [r ->].
  apply prefix_length in Hba. rewrite append_length in Hba.
  destruct r; [now rewrite append_nil_r | simpl in Hba; lia].
Qed.

(** ** The children dictionary *)

Section Dictionary.

Variable V : Type.

Implicit Types (kids : list (ascii * V)) (x y child : V).

Lemma mem_lookup (c : ascii) kids :
  mem c kids = true -> exists child, lookup c kids = Some child.
Proof.
  induction kids as [|[k x] kids IH]; simpl; [discriminate|].
  destruct (Ascii.eqb c k); simpl; eauto.
Qed.

Lemma mem_false_lookup (c : ascii) kids :
  mem c kids = false -> lookup c kids = None.
Proof.
  induction kids as [|[k x] kids IH]; simpl; [reflexivity|].
  destruct (Ascii.eqb c k); simpl; [discriminate | exact IH].
Qed.

Lemma lookup_mem (c : ascii) kids child :
  lookup c kids = Some child -> mem c kids = true.
Proof.
  destruct (mem c kids) eqn:E; [reflexivity|].
  rewrite (mem_false_lookup _ _ E). discriminate.
Qed.

Lemma lookup_In (c : ascii) kids child :
  lookup c kids = Some child -> In (c, child) kids.
Proof.
  induction kids as [|[k x] kids IH]; simpl; [discriminate|].
  destruct (Ascii.eqb_spec c k) as [->|].
  - intros [= ->]. now left.
  - intros H. right. now apply IH.
Qed.

Lemma In_mem (c : ascii) child kids : In (c, child) kids -> mem c kids = true.
Proof.
  induction kids as [|[k x] kids IH]; simpl; [tauto|].
  intros [[= -> ->]|H].
  - now rewrite Ascii.eqb_refl.
  - rewrite (IH H). apply orb_true_r.
Qed.

(** In a dictionary, the binding listed for a key is the one a lookup
    finds. *)
Lemma In_lookup (c : ascii) child kids :
  keys_unique kids = true -> In (c, child) kids -> lookup c kids = Some child.
Proof.
  induction kids as [|[k x] kids IH]; simpl; [tauto|].
  intros Hu [[= -> ->]|H].
  - now rewrite Ascii.eqb_refl.
  - apply andb_prop in Hu as [Hk Hu].
    destruct (Ascii.eqb_spec c k) as [->|]; [|now apply IH].
    rewrite (In_mem _ _ _ H) in Hk. discriminate.
Qed.

Lemma mem_store (c k : ascii) x kids : mem c (store k x kids) = mem c kids.
Proof.
  induction kids as [|[k' y] kids IH]; simpl; [reflexivity|].
  destruct (Ascii.eqb k k'); simpl; [reflexivity | now rewrite IH].
Qed.

Lemma lookup_store_eq (k : ascii) x kids :
  mem k kids = true -> lookup k (store k x kids) = Some x.
Proof.
  induction kids as [|[k' y] kids IH]; simpl; [discriminate|].
  destruct (Ascii.eqb k k') eqn:E; simpl; rewrite E; [reflexivity | exact IH].
Qed.

Lemma lookup_store_ne (c k : ascii) x kids :
  c <> k -> lookup c (store k x kids) = lookup c kids.
Proof.
  intros Hne. induction kids as [|[k' y] kids IH]; simpl; [reflexivity|].
  destruct (Ascii.eqb_spec k k') as [<-|]; simpl.
  - destruct (Ascii.eqb_spec c k); [contradiction | reflexivity].
  - destruct (Ascii.eqb c k'); [reflexivity | exact IH].
Qed.

Lemma store_same (k : ascii) x kids :
  lookup k kids = Some x -> store k x kids = kids.
Proof.
  induction kids as [|[k' y] kids IH]; simpl; [reflexivity|].
  destruct (Ascii.eqb k k').
  - now intros [= ->].
  - intros H. now rewrite IH.
Qed.

Lemma store_app_last (k : ascii) x y kids :
  mem k kids = false -> store k x (kids ++ [(k, y)]) = kids ++ [(k, x)].
Proof.
  induction kids as [|[k' z] kids IH]; simpl.
  - now rewrite Ascii.eqb_refl.
  - destruct (Ascii.eqb k k'); simpl; [discriminate|].
    intros H. now rewrite IH.
Qed.

Lemma mem_app (c : ascii) kids kids' :
  mem c (kids ++ kids') = mem c kids || mem c kids'.
Proof.
  induction kids as [|[k x] kids IH]; simpl; [reflexivity|].
  now rewrite IH, orb_assoc.
Qed.

Lemma lookup_app (c : ascii) kids kids' :
  lookup c (kids ++ kids') =
  match lookup c kids with Some x => Some x | None => lookup c kids' end.
Proof.
  induction kids as [|[k x] kids IH]; simpl; [reflexivity|].
  destruct (Ascii.eqb c k); [reflexivity | exact IH].
Qed.

Lemma keys_unique_store (k : ascii) x kids :
  keys_unique (store k x kids) = keys_unique kids.
Proof.
  induction kids as [|[k' y] kids IH]; simpl; [reflexivity|].
  destruct (Ascii.eqb k k'); simpl; [reflexivity|].
  now rewrite mem_store, IH.
Qed.

Lemma keys_unique_app_last (k : ascii) x kids :
  mem k kids = false -> keys_unique kids = true ->
  keys_unique (kids ++ [(k, x)]) = true.
Proof.
  induction kids as [|[k' y] kids IH]; simpl; [reflexivity|].
  intros Hm Hu. apply orb_false_elim in Hm as [Hne Hm].
  apply andb_prop in Hu as [Hk Hu].
  rewrite mem_app, IH by assumption. simpl.
  rewrite Ascii.eqb_sym, Hne. simpl.
  destruct (mem k' kids); [discriminate | reflexivity].
Qed.

End Dictionary.

(** ** Paths *)

Lemma path_functional n s m m' : path n s m -> path n s m' -> m = m'.
Proof.
  intros H. revert m'. induction H as [n|n c child s m Hl _ IH]; intros m' H'.
  - now inversion H'.
  - inversion H' as [|? ? child' ? ? Hl' Hp']; subst.
    rewrite Hl in Hl'. injection Hl' as <-. now apply IH.
Qed.

Lemma path_append n p x r m : path n p x -> path x r m -> path n (p ++ r) m.
Proof.
  intros H. induction H as [n|n c child s x Hl _ IH]; intros Hr; simpl.
  - exact Hr.
  - eapply path_step; [exact Hl | now apply IH].
Qed.

Lemma path_split n p r m :
  path n (p ++ r) m -> exists x, path n p x /\ path x r m.
Proof.
  revert n. induction p as [|c p IH]; simpl; intros n H.
  - exists n. split; [constructor | exact H].
  - inversion H as [|? ? child ? ? Hl Hp]; subst.
    destruct (IH _ Hp) as [x [Hx Hr]].
    exists x. split; [eapply path_step; eassumption | exact Hr].
Qed.

Lemma accepts_path s n :
  accepts s n = true <-> exists m, path n s m /\ terminal m = true.
Proof.
  revert n. induction s as [|c s IH]; simpl; intros n.
  - split.
    + intros H. exists n. split; [constructor | exact H].
    + intros [m [Hp Ht]]. now inversion Hp; subst.
  - destruct (lookup c (children n)) as [child|] eqn:Hl.
    + rewrite IH. split; intros [m [Hp Ht]]; exists m; split; try exact Ht.
      * eapply path_step; eassumption.
      * inversion Hp as [|? ? child' ? ? Hl' Hp']; subst.
        rewrite Hl in Hl'. now injection Hl' as <-.
    + split; [discriminate|]. intros [m [Hp _]].
      inversion Hp; subst. congruence.
Qed.

Lemma accepts_append n p x r :
  path n p x -> accepts (p ++ r) n = accepts r x.
Proof.
  intros H. induction H as [n|n c child s x Hl _ IH]; simpl.
  - reflexivity.
  - now rewrite Hl.
Qed.

(** ** The guarded accessor *)

Lemma has_child_get_child c node :
  has_child c node = true ->
  exists child, get_child c node = Ok child /\ lookup c (children node) = Some child.
Proof.
  unfold has_child, get_child. intros H.
  destruct (mem_lookup _ _ H) as [child ->]. now exists child.
Qed.

Lemma has_child_false c node :
  has_child c node = false -> lookup c (children node) = None.
Proof. apply mem_false_lookup. Qed.

(** ** [_find_node] *)

Lemma find_node_loop t s : _find_node t s = find_loop s (root t) 0.
Proof. unfold _find_node. now destruct s. Qed.

(** The walk stops at the node reached by the longest prefix [p] of the input
    that has a path, and the rest [r] of the input is empty or starts with a
    character that has no edge there. *)
Lemma find_loop_spec s node depth :
  exists m p r,
    s = (p ++ r)%string /\
    find_loop s node depth = Ok (m, depth + String.length p) /\
    path node p m /\
    (r = ""%string \/
     exists c r', r = String c r' /\ lookup c (children m) = None).
Proof.
  revert node depth. induction s as [|c s IH]; intros node depth.
  - exists node, ""%string, ""%string. simpl. rewrite Nat.add_0_r.
    repeat split; [constructor | now left].
  - simpl. destruct (has_child c node) eqn:Hc.
    + destruct (has_child_get_child _ _ Hc) as [child [-> Hl]]. simpl.
      destruct (IH child (depth + 1)) as [m [p [r [-> [Hf [Hp Hr]]]]]].
      exists m, (String c p), r. simpl.
      rewrite Hf. replace (depth + 1 + String.length p)
        with (depth + S (String.length p)) by lia.
      repeat split; [eapply path_step; eassumption | exact Hr].
    + exists node, ""%string, (String c s). simpl. rewrite Nat.add_0_r.
      repeat split; [constructor|]. right. exists c, s.
      split; [reflexivity | now apply has_child_false].
Qed.

Lemma find_loop_path s node depth m :
  path node s m -> find_loop s node depth = Ok (m, depth + String.length s).
Proof.
  intros H. revert depth.
  induction H as [n|n c child s m Hl _ IH]; intros depth; simpl.
  - now rewrite Nat.add_0_r.
  - unfold has_child, get_child. rewrite (lookup_mem _ _ Hl), Hl. simpl.
    rewrite IH. f_equal. f_equal. lia.
Qed.

Lemma find_loop_accepts s node depth m depth' :
  find_loop s node depth = Ok (m, depth') ->
  (depth' =? depth + String.length s)%nat && is_terminal m = accepts s node.
Proof.
  revert node depth. induction s as [|c s IH]; simpl; intros node depth.
  - intros [= -> ->]. now rewrite Nat.add_0_r, Nat.eqb_refl.
  - destruct (has_child c node) eqn:Hc.
    + destruct (has_child_get_child _ _ Hc) as [child [-> Hl]]. simpl.
      rewrite Hl. intros H. rewrite <- (IH _ _ H).
      now replace (depth + 1 + String.length s)
        with (depth + S (String.length s)) by lia.
    + rewrite (has_child_false _ _ Hc). intros [= -> ->].
      replace (depth' =? depth' + S (String.length s))%nat with false; [reflexivity|].
      symmetry. apply Nat.eqb_neq. lia.
Qed.

Lemma find_node_returns t s :
  exists m depth, _find_node t s = Ok (m, depth).
Proof.
  rewrite find_node_loop.
  destruct (find_loop_spec s (root t) 0) as [m [p [r [_ [H _]]]]]. eauto.
Qed.

(** ** [contains] *)

Lemma contains_accepts t s : contains t s = Ok (accepts s (root t)).
Proof.
  unfold contains. destruct (find_node_returns t s) as [m [depth H]].
  rewrite H. simpl. rewrite find_node_loop in H.
  apply find_loop_accepts in H. simpl in H. rewrite H.
  now destruct (accepts s (root t)).
Qed.

(** ** [insert] *)

Lemma insert_loop_returns s node : exists node', insert_loop s node = Ok node'.
Proof.
  revert node. induction s as [|c s IH]; simpl; intros node; [eauto|].
  destruct (has_child c node) eqn:Hc.
  - destruct (has_child_get_child _ _ Hc) as [child [-> _]]. simpl.
    destruct (IH child) as [child' ->]. simpl. eauto.
  - unfold add_child. rewrite Hc. simpl.
    destruct (IH (new_node (char_str c))) as [child' ->]. simpl. eauto.
Qed.

(** One round of the loop of [insert], seen from the node it starts at:
    the walk continues in [child], the existing child for [c] or else a new
    node put last in the dictionary; what it makes of [child] is found under
    [c] afterwards, and nothing else about the node changes. *)
Lemma insert_loop_step c s node :
  exists child child' kids',
    insert_loop s child = Ok child' /\
    insert_loop (String c s) node
      = Ok (mkNode (character node) (terminal node) kids') /\
    ((lookup c (children node) = Some child /\
      kids' = store c child' (children node)) \/
     (mem c (children node) = false /\
      child = new_node (char_str c) /\
      kids' = children node ++ [(c, child')])).
Proof.
  simpl. destruct (has_child c node) eqn:Hc.
  - destruct (has_child_get_child _ _ Hc) as [child [-> Hl]]. simpl.
    destruct (insert_loop_returns s child) as [child' Hi]. rewrite Hi. simpl.
    exists child, child', (store c child' (children node)).
    repeat split; [exact Hi | now left].
  - unfold add_child. rewrite Hc. simpl.
    destruct (insert_loop_returns s (new_node (char_str c))) as [child' Hi].
    rewrite Hi. simpl. unfold store_child. simpl.
    exists (new_node (char_str c)), child', (children node ++ [(c, child')]).
    rewrite (store_app_last _ _ _ _ Hc).
    repeat split; [exact Hi | now right].
Qed.

Lemma accepts_new_node s ch : accepts s (new_node ch) = false.
Proof. now destruct s. Qed.

(** After the walk of [insert] for [s], the strings stored below the node are
    [s] and those stored before. *)
Lemma accepts_insert_loop s node node' s' :
  insert_loop s node = Ok node' ->
  accepts s' node' = String.eqb s' s || accepts s' node.
Proof.
  revert node node' s'. induction s as [|c s IH]; intros node node' s' H.
  - simpl in H. injection H as <-. now destruct s'.
  - destruct (insert_loop_step c s node)
      as [child [child' [kids' [Hi [Hn Hk]]]]].
    rewrite Hn in H. injection H as <-.
    destruct s' as [|c' s']; [reflexivity|]. simpl.
    destruct (Ascii.eqb_spec c' c) as [->|Hne]; simpl.
    + destruct Hk as [[Hl ->]|[Hm [-> ->]]].
      * rewrite (lookup_store_eq _ _ _ (lookup_mem _ _ Hl)), Hl.
        apply (IH _ _ s' Hi).
      * rewrite lookup_app, (mem_false_lookup _ _ Hm). simpl.
        rewrite Ascii.eqb_refl, (IH _ _ s' Hi).
        now rewrite accepts_new_node.
    + destruct Hk as [[Hl ->]|[Hm [-> ->]]].
      * now rewrite (lookup_store_ne _ _ Hne).
      * rewrite lookup_app. destruct (lookup c' (children node)); [reflexivity|].
        simpl. now destruct (Ascii.eqb_spec c' c).
Qed.

Lemma forallb_store (f : ascii * PrefixTreeNode -> bool) c x kids :
  (forall k, f (k, x) = true) ->
  forallb f kids = true -> forallb f (store c x kids) = true.
Proof.
  intros Hx. induction kids as [|[k y] kids IH]; simpl; [reflexivity|].
  intros H. apply andb_prop in H as [Hy H].
  destruct (Ascii.eqb c k); simpl.
  - now rewrite Hx, H.
  - now rewrite Hy, IH.
Qed.

Lemma wf_node_child c node child :
  wf_node node = true -> lookup c (children node) = Some child ->
  wf_node child = true.
Proof.
  destruct node as [ch t kids]. simpl. intros H Hl.
  apply andb_prop in H as [_ H]. rewrite forallb_forall in H.
  exact (H _ (lookup_In _ _ Hl)).
Qed.

(** [insert] keeps every dictionary of the tree a dictionary. *)
Lemma wf_insert_loop s node node' :
  wf_node node = true -> insert_loop s node = Ok node' -> wf_node node' = true.
Proof.
  revert node node'. induction s as [|c s IH]; intros node node' Hwf H.
  - simpl in H. injection H as <-. now destruct node.
  - destruct (insert_loop_step c s node)
      as [child [child' [kids' [Hi [Hn Hk]]]]].
    rewrite Hn in H. injection H as <-.
    destruct Hk as [[Hl ->]|[Hm [-> ->]]].
    + pose proof (IH _ _ (wf_node_child _ _ Hwf Hl) Hi) as Hc.
      destruct node as [ch t kids]. simpl in *.
      apply andb_prop in Hwf as [Hu Hall].
      rewrite keys_unique_store, Hu. simpl.
      now apply forallb_store.
    + pose proof (IH (new_node (char_str c)) _ eq_refl Hi) as Hc.
      destruct node as [ch t kids]. simpl in *.
      apply andb_prop in Hwf as [Hu Hall].
      rewrite (keys_unique_app_last _ _ _ Hm Hu). simpl.
      rewrite forallb_app, Hall. simpl. now rewrite Hc.
Qed.

Lemma insert_eq t s :
  exists root',
    insert_loop s (root t) = Ok root' /\
    insert t s
      = Ok (mkTree root' (if accepts s (root t) then size t else size t + 1)).
Proof.
  destruct (insert_loop_returns s (root t)) as [root' H].
  exists root'. split; [exact H|].
  unfold insert. rewrite contains_accepts. simpl. rewrite H. simpl.
  now destruct (accepts s (root t)).
Qed.


(** ** [_traverse] *)

(** With [list.append] as the callback, [_traverse] adds [words] at the end
    of the list it is given. *)
Lemma traverse_words node prefix acc :
  _traverse node prefix list_append acc = acc ++ words node prefix.
Proof.
  revert prefix acc.
  induction node as [ch t kids IH] using PrefixTreeNode_ind.
  intros prefix acc. simpl.
  assert (Hfold : forall st,
    fold_left
      (fun acc kv =>
         _traverse (snd kv) (prefix ++ char_str (fst kv))%string list_append acc)
      kids st
    = st ++ flat_map
              (fun kv => words (snd kv) (prefix ++ char_str (fst kv))%string) kids).
  { induction IH as [|kv kids Hkv _ IHkids]; intros st; simpl.
    - now rewrite app_nil_r.
    - rewrite Hkv, IHkids. now rewrite app_assoc. }
  rewrite Hfold. destruct t; unfold list_append; simpl; [|reflexivity].
  now rewrite <- app_assoc.
Qed.

(** Every string listed below a node starts with the prefix the walk came
    with. *)
Lemma words_prefix node prefix s :
  In s (words node prefix) -> exists r, s = (prefix ++ r)%string.
Proof.
  revert prefix.
  induction node as [ch t kids IH] using PrefixTreeNode_ind.
  intros prefix. simpl. rewrite in_app_iff, in_flat_map.
  intros [H|[[c child] [Hin H]]].
  - destruct t; [|contradiction]. destruct H as [<-|[]].
    exists ""%string. now rewrite append_nil_r.
  - rewrite Forall_forall in IH.
    destruct (IH _ Hin _ H) as [r ->]. simpl.
    exists (String c r). apply append_char.
Qed.

(** In a well-formed tree a listed string is [prefix] followed by a string
    stored below the node. *)
Lemma words_accepts node prefix s :
  wf_node node = true ->
  In s (words node prefix) ->
  exists r, s = (prefix ++ r)%string /\ accepts r node = true.
Proof.
  revert prefix.
  induction node as [ch t kids IH] using PrefixTreeNode_ind.
  intros prefix Hwf. simpl in Hwf. apply andb_prop in Hwf as [Hu Hall].
  simpl. rewrite in_app_iff, in_flat_map.
  intros [H|[[c child] [Hin H]]].
  - destruct t; [|contradiction]. destruct H as [<-|[]].
    exists ""%string. now rewrite append_nil_r.
  - rewrite Forall_forall in IH. rewrite forallb_forall in Hall.
    destruct (IH _ Hin _ (Hall _ Hin) H) as [r [-> Hr]]. simpl.
    exists (String c r). split; [apply append_char|].
    simpl. now rewrite (In_lookup _ _ _ Hu Hin).
Qed.

(** Every string stored below the node is listed. *)
Lemma accepts_words r node prefix :
  accepts r node = true -> In (prefix ++ r)%string (words node prefix).
Proof.
  revert node prefix. induction r as [|c r IH]; intros node prefix H.
  - destruct node as [ch t kids]. simpl in *. subst t.
    rewrite append_nil_r. now left.
  - destruct node as [ch t kids]. simpl in *.
    destruct (lookup c kids) as [child|] eqn:Hl; [|discriminate].
    apply in_or_app. right. apply in_flat_map.
    exists (c, child). split; [now apply lookup_In|].
    simpl. rewrite <- append_char. now apply IH.
Qed.

(** *** Order of the enumeration *)

Lemma ForallOrdPairs_app (A : Type) (R : A -> A -> Prop) (l l' : list A) :
  ForallOrdPairs R l -> ForallOrdPairs R l' ->
  (forall x y, In x l -> In y l' -> R x y) ->
  ForallOrdPairs R (l ++ l').
Proof.
  intros Hl Hl' Hx. induction Hl as [|a l Ha _ IH]; simpl; [exact Hl'|].
  constructor.
  - apply Forall_app. split; [exact Ha|].
    apply Forall_forall. intros y Hy. apply Hx; [now left | exact Hy].
  - apply IH. intros x y Hin. apply Hx. now right.
Qed.

Lemma ForallOrdPairs_nth_error (A : Type) (R : A -> A -> Prop) (l : list A) :
  ForallOrdPairs R l ->
  forall i j x y,
    nth_error l i = Some x -> nth_error l j = Some y -> i < j -> R x y.
Proof.
  induction 1 as [|a l Ha _ IH]; intros i j x y Hi Hj Hlt.
  - now destruct i.
  - destruct j as [|j]; [lia|]. simpl in Hj.
    destruct i as [|i]; simpl in Hi.
    + injection Hi as <-. rewrite Forall_forall in Ha.
      apply Ha. eapply nth_error_In, Hj.
    + apply (IH i j); [assumption | assumption | lia].
Qed.

Lemma later_strict (x y : string) : later x y -> x <> y.
Proof. unfold later. intros H ->. now rewrite prefix_refl in H. Qed.

Lemma later_longer (p r : string) (c : ascii) :
  later p (p ++ String c r)%string.
Proof.
  unfold later. destruct (String.prefix (p ++ String c r) p) eqn:E; [|reflexivity].
  apply prefix_length in E. rewrite append_length in E. simpl in E. lia.
Qed.

Lemma later_branch (p r r' : string) (c c' : ascii) :
  c <> c' -> later (p ++ String c r)%string (p ++ String c' r')%string.
Proof.
  unfold later. intros Hne. rewrite prefix_append_l. simpl.
  destruct (ascii_dec c' c); [congruence | reflexivity].
Qed.

(** In a well-formed tree no listed string is a prefix of a string listed
    before it. *)
Lemma words_later node prefix :
  wf_node node = true -> ForallOrdPairs later (words node prefix).
Proof.
  revert prefix.
  induction node as [ch t kids IH] using PrefixTreeNode_ind.
  intros prefix Hwf. simpl in Hwf. apply andb_prop in Hwf as [Hu Hall].
  simpl. apply ForallOrdPairs_app.
  - destruct t; repeat constructor.
  - clear t. induction IH as [|[c child] kids Hkv _ IHkids]; simpl; [constructor|].
    simpl in Hu, Hall.
    apply andb_prop in Hu as [Hc Hu]. apply andb_prop in Hall as [Hw Hall].
    apply ForallOrdPairs_app; [now apply Hkv | now apply IHkids |].
    intros x y Hx Hy. apply in_flat_map in Hy as [[c' child'] [Hin Hy]].
    apply words_prefix in Hx as [r ->]. apply words_prefix in Hy as [r' ->].
    simpl. rewrite !append_char. apply later_branch.
    intros ->. rewrite (In_mem _ _ _ Hin) in Hc. discriminate.
  - intros x y Hx Hy. destruct t; [|contradiction]. destruct Hx as [<-|[]].
    apply in_flat_map in Hy as [[c child] [_ Hy]].
    apply words_prefix in Hy as [r ->]. simpl. rewrite append_char.
    apply later_longer.
Qed.

Lemma words_NoDup node prefix :
  wf_node node = true -> NoDup (words node prefix).
Proof.
  intros Hwf. apply NoDup_iff_ForallOrdPairs.
  pose proof (words_later node prefix Hwf) as H.
  induction H as [|a l Ha _ IH]; constructor; [|exact IH].
  eapply Forall_impl; [|exact Ha]. intros y. apply later_strict.
Qed.

(** ** [complete] and [strings] *)

Lemma strings_words t : strings t = words (root t) "".
Proof. unfold strings. now rewrite traverse_words. Qed.

(** [complete] lists the strings below the node the prefix leads to, and
    nothing when the prefix has no path. *)
Lemma complete_spec t prefix :
  (exists m, path (root t) prefix m /\
             _find_node t prefix = Ok (m, String.length prefix) /\
             complete t prefix = Ok (words m prefix)) \/
  ((forall m, ~ path (root t) prefix m) /\
   (exists m depth, _find_node t prefix = Ok (m, depth) /\
                    depth < String.length prefix) /\
   complete t prefix = Ok []).
Proof.
  unfold complete. rewrite find_node_loop.
  destruct (find_loop_spec prefix (root t) 0)
    as [m [p [r [-> [Hf [Hp [->|[c [r' [-> Hl]]]]]]]]]]; simpl in Hf.
  - left. exists m. rewrite append_nil_r in *. rewrite Hf. simpl.
    rewrite Nat.eqb_refl, traverse_words. auto.
  - right. split; [|split].
    + intros m' H. apply path_split in H as [x [Hx H]].
      rewrite (path_functional Hx Hp) in H. inversion H; subst. congruence.
    + exists m, (String.length p). split; [exact Hf|].
      rewrite append_length. simpl. lia.
    + rewrite Hf. simpl.
      replace (String.length p =? String.length (p ++ String c r'))%nat
        with false; [reflexivity|].
      symmetry. apply Nat.eqb_neq. rewrite append_length. simpl. lia.
Qed.

(** ** The constructor *)

Lemma insert_all_returns l t : exists t', insert_all t l = Ok t'.
Proof.
  revert t. induction l as [|s l IH]; simpl; intros t; [eauto|].
  destruct (insert_eq t s) as [root' [_ ->]]. simpl. apply IH.
Qed.

Lemma accepts_insert_all l t t' q :
  insert_all t l = Ok t' ->
  accepts q (root t') = existsb (String.eqb q) l || accepts q (root t).
Proof.
  revert t. induction l as [|s l IH]; simpl; intros t.
  - now intros [= ->].
  - destruct (insert_eq t s) as [root' [Hi ->]]. simpl. intros H.
    rewrite (IH _ H). simpl. rewrite (accepts_insert_loop _ _ q Hi).
    now rewrite orb_assoc, (orb_comm (existsb _ l)).
Qed.

Lemma wf_insert t s t' : wf_tree t = true -> insert t s = Ok t' -> wf_tree t' = true.
Proof.
  destruct (insert_eq t s) as [root' [Hi ->]]. intros Hwf [= <-].
  exact (wf_insert_loop _ _ Hwf Hi).
Qed.

Lemma wf_insert_all l t t' :
  wf_tree t = true -> insert_all t l = Ok t' -> wf_tree t' = true.
Proof.
  revert t. induction l as [|s l IH]; simpl; intros t Hwf.
  - now intros [= <-].
  - destruct (insert t s) as [t1|] eqn:E; simpl; [|discriminate].
    apply IH. exact (wf_insert _ _ Hwf E).
Qed.

(** Every tree the constructor builds is well-formed. *)
Lemma wf_init strings t : __init__ strings = Ok t -> wf_tree t = true.
Proof.
  destruct strings as [l|]; simpl.
  - now apply wf_insert_all.
  - now intros [= <-].
Qed.

Lemma existsb_eqb_In q l : existsb (String.eqb q) l = true <-> In q l.
Proof.
  rewrite existsb_exists. split.
  - intros [x [Hin Hq]]. apply String.eqb_eq in Hq. now subst.
  - intros H. exists q. split; [exact H | apply String.eqb_refl].
Qed.

Lemma demo_tree_built : demo = Ok demo_tree.
Proof. reflexivity. Qed.

(** The scenario of the specification: insert "ABC", "ABD", "A", "XYZ". *)
Example demo_size : size demo_tree = 4 /\ is_empty demo_tree = false.
Proof. split; reflexivity. Qed.

Example demo_complete :
  complete demo_tree "AB" = Ok ["ABC"; "ABD"]%string /\
  complete demo_tree "X" = Ok ["XYZ"]%string /\
  complete demo_tree "Q" = Ok [].
Proof. repeat split. Qed.

Example demo_strings : strings demo_tree = ["A"; "ABC"; "ABD"; "XYZ"]%string.
Proof. reflexivity. Qed.

Example demo_empty : is_empty empty_tree = true /\ strings empty_tree = [].
Proof. split; reflexivity. Qed.

(** ** Inserting twice *)

Lemma insert_loop_again s node node' :
  insert_loop s node = Ok node' -> insert_loop s node' = Ok node'.
Proof.
  revert node node'. induction s as [|c s IH]; intros node node' H.
  - simpl in H. injection H as <-. reflexivity.
  - destruct (insert_loop_step c s node)
      as [child [child' [kids' [Hi [Hn Hk]]]]].
    rewrite Hn in H. injection H as <-.
    assert (Hl : lookup c kids' = Some child').
    { destruct Hk as [[Hl ->]|[Hm [_ ->]]].
      - apply lookup_store_eq. exact (lookup_mem _ _ Hl).
      - rewrite lookup_app, (mem_false_lookup _ _ Hm). simpl.
        now rewrite Ascii.eqb_refl. }
    simpl. unfold has_child, get_child. simpl.
    rewrite (lookup_mem _ _ Hl), Hl. simpl.
    rewrite (IH _ _ Hi). simpl. unfold store_child. simpl.
    now rewrite (store_same _ _ Hl).
Qed.

Lemma terminal_insert_loop s node node' :
  insert_loop s node = Ok node' ->
  terminal node' = terminal node || String.eqb s "" /\
  character node' = character node.
Proof.
  destruct s as [|c s]; intros H.
  - simpl in H. injection H as <-. simpl. now rewrite orb_true_r.
  - destruct (insert_loop_step c s node) as [child [child' [kids' [_ [Hn _]]]]].
    rewrite Hn in H. injection H as <-. simpl. now rewrite orb_false_r.
Qed.

(** ** Order of the results *)

Lemma words_extensions_later node prefix :
  wf_node node = true -> extensions_later (words node prefix).
Proof.
  intros Hwf i j s s' Hi Hj [Hpre Hne].
  pose proof (ForallOrdPairs_nth_error (words_later node prefix Hwf)) as H.
  destruct (Nat.lt_trichotomy i j) as [Hlt|[->|Hgt]]; [exact Hlt| |].
  - rewrite Hi in Hj. now injection Hj.
  - pose proof (H _ _ _ _ Hj Hi Hgt) as Hl. unfold later in Hl. congruence.
Qed.

Lemma proper_prefix_trans_l (p s s' : string) :
  String.prefix p s = true -> proper_prefix s s' -> String.prefix p s' = true.
Proof.
  intros Hp [Hs _]. apply prefix_inv in Hp as [r ->].
  apply prefix_inv in Hs as [r' ->]. rewrite append_assoc. apply prefix_append.
Qed.

(** ** Queries on the store *)

Lemma frames_ret (A : Type) (a : A) : Store.frames (Store.ret a).
Proof. intros st. reflexivity. Qed.

Lemma frames_raise (A : Type) (e : exn) : Store.frames (@Store.raise A e).
Proof. intros st. reflexivity. Qed.

Lemma frames_read r : Store.frames (Store.read r).
Proof. intros st. reflexivity. Qed.

Lemma frames_get_root : Store.frames Store.get_root.
Proof. intros st. reflexivity. Qed.

Lemma frames_get_size : Store.frames Store.get_size.
Proof. intros st. reflexivity. Qed.

Lemma frames_bind (A B : Type) (m : Store.M A) (k : A -> Store.M B) :
  Store.frames m -> (forall a, Store.frames (k a)) ->
  Store.frames (Store.bind m k).
Proof.
  intros Hm Hk st. unfold Store.bind. specialize (Hm st).
  destruct (m st) as [[a|e] st']; simpl in Hm; subst st'; [apply Hk | reflexivity].
Qed.

Create HintDb frames.

#[local] Hint Resolve frames_ret frames_raise frames_read frames_get_root
  frames_get_size frames_bind : frames.

Lemma frames_is_terminal node : Store.frames (Store.is_terminal node).
Proof. unfold Store.is_terminal. auto with frames. Qed.

Lemma frames_has_child node c : Store.frames (Store.has_child node c).
Proof. unfold Store.has_child. auto with frames. Qed.

Lemma frames_get_child node c : Store.frames (Store.get_child node c).
Proof.
  unfold Store.get_child. apply frames_bind; [auto with frames|].
  intros o. destruct (lookup c (Store.children o)); auto with frames.
Qed.

Lemma frames_items node : Store.frames (Store.items node).
Proof. unfold Store.items. auto with frames. Qed.

#[local] Hint Resolve frames_is_terminal frames_has_child frames_get_child
  frames_items : frames.

Lemma frames_find_loop s node depth : Store.frames (Store.find_loop s node depth).
Proof.
  revert node depth. induction s as [|c s IH]; intros node depth; simpl.
  - auto with frames.
  - apply frames_bind; [auto with frames|]. intros [|]; auto with frames.
Qed.

Lemma frames_find_node s : Store.frames (Store._find_node s).
Proof.
  unfold Store._find_node. pose proof frames_find_loop.
  destruct (String.length s =? 0)%nat; auto with frames.
Qed.

Lemma frames_contains s : Store.frames (Store.contains s).
Proof.
  unfold Store.contains. apply frames_bind; [apply frames_find_node|].
  intros [node depth]. destruct (depth =? String.length s)%nat; [|auto with frames].
  apply frames_bind; [auto with frames|]. intros [|]; auto with frames.
Qed.

Lemma frames_for_each (A St : Type) (body : St -> A -> Store.M St) l acc :
  (forall acc a, Store.frames (body acc a)) ->
  Store.frames (Store.for_each body l acc).
Proof.
  intros Hb. revert acc. induction l as [|a l IH]; intros acc; simpl;
    auto with frames.
Qed.

Lemma frames_traverse (St : Type) fuel node prefix (visit : string -> St -> St) acc :
  Store.frames (Store._traverse fuel node prefix visit acc).
Proof.
  revert node prefix acc.
  induction fuel as [|fuel IH]; intros node prefix acc; simpl; [auto with frames|].
  apply frames_bind; [auto with frames|]. intros t.
  apply frames_bind; [auto with frames|]. intros kids.
  apply frames_for_each. intros acc' kv. apply IH.
Qed.

Lemma frames_complete fuel prefix : Store.frames (Store.complete fuel prefix).
Proof.
  unfold Store.complete. apply frames_bind; [apply frames_find_node|].
  intros [node depth]. destruct (depth =? String.length prefix)%nat;
    [apply frames_traverse | auto with frames].
Qed.

Lemma frames_strings fuel : Store.frames (Store.strings fuel).
Proof.
  unfold Store.strings. apply frames_bind; [auto with frames|].
  intros node. apply frames_traverse.
Qed.

Lemma frames_is_empty : Store.frames Store.is_empty.
Proof.
  unfold Store.is_empty. apply frames_bind; [auto with frames|].
  intros n. destruct (n =? 0)%nat; auto with frames.
Qed.

(** ** Agreement of the two models *)

Lemma repr_inv h r node :
  repr h r node ->
  Store.character (nth r h Store.blank) = character node /\
  Store.terminal (nth r h Store.blank) = terminal node /\
  Forall2 (fun cr cn => fst cr = fst cn /\ repr h (snd cr) (snd cn))
          (Store.children (nth r h Store.blank)) (children node).
Proof. intros H. inversion H. auto. Qed.

(** Related dictionaries have the same keys, and related children under
    each. *)
Lemma related_lookup h c rs kids :
  Forall2 (fun cr cn => fst cr = fst cn /\ repr h (snd cr) (snd cn)) rs kids ->
  mem c rs = mem c kids /\
  match lookup c rs, lookup c kids with
  | Some r, Some child => repr h r child
  | None, None => True
  | _, _ => False
  end.
Proof.
  induction 1 as [|[k r] [k' child] rs kids [Hk Hr] _ [IHm IHl]]; simpl.
  - auto.
  - simpl in Hk, Hr. subst k'. rewrite IHm.
    split; [reflexivity|]. now destruct (Ascii.eqb c k).
Qed.

Lemma store_find_loop_step c s node depth st :
  Store.find_loop (String c s) node depth st =
  let o := nth node (Store.heap st) Store.blank in
  if mem c (Store.children o) then
    match lookup c (Store.children o) with
    | Some child => Store.find_loop s child (depth + 1) st
    | None => (Raise (LookupError c), st)
    end
  else (Ok (node, depth), st).
Proof.
  simpl. unfold Store.bind, Store.has_child, Store.get_child, Store.bind.
  simpl. destruct (mem c _); [|reflexivity].
  now destruct (lookup c _).
Qed.

Lemma find_loop_agree s st r node depth :
  repr (Store.heap st) r node ->
  exists r' node' depth',
    Store.find_loop s r depth st = (Ok (r', depth'), st) /\
    find_loop s node depth = Ok (node', depth') /\
    repr (Store.heap st) r' node'.
Proof.
  revert r node depth. induction s as [|c s IH]; intros r node depth Hr.
  - exists r, node, depth. auto.
  - rewrite store_find_loop_step. simpl.
    destruct (repr_inv Hr) as [_ [_ Hk]].
    destruct (related_lookup c Hk) as [Hm Hl].
    unfold has_child, get_child. rewrite Hm.
    destruct (mem c (children node)) eqn:E.
    + destruct (mem_lookup _ _ E) as [child Hc]. rewrite Hc in *.
      destruct (lookup c (Store.children _)) as [r'|]; [|contradiction].
      simpl. apply IH. exact Hl.
    + exists r, node, depth. auto.
Qed.

Lemma find_node_agree s st t :
  represents st t ->
  exists r' node' depth',
    Store._find_node s st = (Ok (r', depth'), st) /\
    _find_node t s = Ok (node', depth') /\
    repr (Store.heap st) r' node'.
Proof.
  intros [Hr _]. rewrite find_node_loop. destruct s as [|c s].
  - exists (Store.root st), (root t), 0. auto.
  - exact (find_loop_agree (String c s) st 0 Hr).
Qed.

Lemma find_node_path t s m :
  _find_node t s = Ok (m, String.length s) -> path (root t) s m.
Proof.
  rewrite find_node_loop.
  destruct (find_loop_spec s (root t) 0) as [m' [p [r [-> [Hf [Hp _]]]]]].
  rewrite Hf. simpl. rewrite append_length. intros [= -> H].
  destruct r; [now rewrite append_nil_r | simpl in H; lia].
Qed.

Lemma height_child c node child :
  lookup c (children node) = Some child -> height child < height node.
Proof.
  destruct node as [ch t kids]. simpl. intros H. apply lookup_In in H.
  apply Nat.lt_succ_r.
  induction kids as [|kv kids IH]; simpl; [contradiction|].
  destruct H as [->|H]; simpl; [lia|]. specialize (IH H). lia.
Qed.

Lemma height_path node s m : path node s m -> height m <= height node.
Proof.
  induction 1 as [n|n c child s m Hl _ IH]; [lia|].
  apply height_child in Hl. lia.
Qed.

Lemma store_traverse_step (St : Type) fuel node prefix
  (visit : string -> St -> St) acc st :
  Store._traverse (S fuel) node prefix visit acc st =
  let o := nth node (Store.heap st) Store.blank in
  Store.for_each
    (fun acc kv =>
       Store._traverse fuel (snd kv) (prefix ++ char_str (fst kv))%string visit acc)
    (Store.children o)
    (if Store.terminal o then visit prefix acc else acc) st.
Proof. reflexivity. Qed.

(** With fuel for the height of the tree, the walk over the store lists
    what the walk over the tree lists. *)
Lemma traverse_agree node :
  forall fuel r prefix acc st,
    repr (Store.heap st) r node -> height node <= fuel ->
    Store._traverse fuel r prefix list_append acc st
    = (Ok (acc ++ words node prefix), st).
Proof.
  induction node as [ch t kids IH] using PrefixTreeNode_ind.
  intros fuel r prefix acc st Hr Hh.
  destruct fuel as [|fuel]; [simpl in Hh; lia|].
  rewrite store_traverse_step. simpl.
  destruct (repr_inv Hr) as [_ [Ht Hk]]. simpl in Ht, Hk, Hh.
  rewrite Ht, app_assoc.
  replace (if t then list_append prefix acc else acc)
    with (acc ++ (if t then [prefix] else []))
    by (destruct t; [reflexivity | apply app_nil_r]).
  generalize (acc ++ (if t then [prefix] else [])). apply le_S_n in Hh.
  clear Hr Ht. revert Hh IH.
  induction Hk as [|[c r'] [c' child] rs kids [Hc Hr'] _ IHk];
    intros Hh IH acc'; simpl.
  - now rewrite app_nil_r.
  - simpl in Hc, Hr', Hh. subst c'. inversion IH as [|? ? Hchild Hrest]; subst.
    unfold Store.bind. simpl in Hchild.
    rewrite (Hchild fuel r' (prefix ++ char_str c)%string acc' st Hr') by lia.
    rewrite IHk; [now rewrite app_assoc | lia | exact Hrest].
Qed.

(** On a state that represents a tree, each query on the store answers as
    the query on the tree does. *)
Lemma queries_agree st t s fuel :
  represents st t -> height (root t) <= fuel ->
  fst (Store.contains s st) = contains t s /\
  fst (Store.complete fuel s st) = complete t s /\
  fst (Store.strings fuel st) = Ok (strings t) /\
  fst (Store.is_empty st) = Ok (is_empty t).
Proof.
  intros Hrep Hh. pose proof Hrep as [Hr Hs].
  destruct (find_node_agree s Hrep) as [r' [node' [depth' [Hf [Hf' Hr']]]]].
  repeat split.
  - unfold Store.contains, contains, Store.bind. rewrite Hf, Hf'. simpl.
    destruct (repr_inv Hr') as [_ [Ht _]].
    destruct (depth' =? String.length s)%nat; [|reflexivity].
    simpl. unfold is_terminal. rewrite Ht. now destruct (terminal node').
  - unfold Store.complete, complete, Store.bind. rewrite Hf, Hf'. simpl.
    destruct (depth' =? String.length s)%nat eqn:E; [|reflexivity].
    apply Nat.eqb_eq in E. subst depth'.
    apply find_node_path, height_path in Hf'.
    rewrite traverse_agree with (node := node'), traverse_words;
      [reflexivity | assumption | lia].
  - unfold Store.strings, Store.bind. simpl.
    rewrite traverse_agree with (node := root t); try assumption.
    simpl. now rewrite strings_words.
  - unfold Store.is_empty, is_empty, Store.bind. simpl. rewrite Hs.
    now destruct (size t =? 0)%nat.
Qed.

(** ** [insert] on the store *)

(** *** Trees with references *)

Section MapValues.

Variables (V W : Type) (f : V -> W).

Implicit Types (kids : list (ascii * V)).

Lemma mem_map c kids : mem c (map (fun kv => (fst kv, f (snd kv))) kids) = mem c kids.
Proof.
  induction kids as [|[k x] kids IH]; simpl; [reflexivity | now rewrite IH].
Qed.

Lemma lookup_map c kids :
  lookup c (map (fun kv => (fst kv, f (snd kv))) kids) = option_map f (lookup c kids).
Proof.
  induction kids as [|[k x] kids IH]; simpl; [reflexivity|].
  now destruct (Ascii.eqb c k).
Qed.

Lemma store_map c x kids :
  store c (f x) (map (fun kv => (fst kv, f (snd kv))) kids)
  = map (fun kv => (fst kv, f (snd kv))) (store c x kids).
Proof.
  induction kids as [|[k y] kids IH]; simpl; [reflexivity|].
  destruct (Ascii.eqb c k); simpl; [reflexivity | now rewrite IH].
Qed.

Lemma lookup_split c kids child :
  lookup c kids = Some child ->
  exists k1 k2, kids = k1 ++ (c, child) :: k2 /\
                forall x, store c x kids = k1 ++ (c, x) :: k2.
Proof.
  induction kids as [|[k y] kids IH]; simpl; [discriminate|].
  destruct (Ascii.eqb_spec c k) as [->|Hne].
  - intros [= ->]. exists [], kids. split; [reflexivity|].
    intros x. reflexivity.
  - intros H. destruct (IH H) as [k1 [k2 [-> Hs]]].
    exists ((k, y) :: k1), k2. split; [reflexivity|].
    intros x. simpl. now rewrite Hs.
Qed.

End MapValues.

Lemma rinsert_top s rt next :
  rref (fst (rinsert s rt next)) = rref rt /\
  rchar (fst (rinsert s rt next)) = rchar rt.
Proof.
  destruct s as [|c s]; simpl; [auto|].
  destruct (lookup c (rkids rt)) as [child|].
  - destruct (rinsert s child next). auto.
  - destruct (rinsert s _ (S next)). auto.
Qed.

Lemma erase_children rt :
  children (erase rt) = map (fun kv => (fst kv, erase (snd kv))) (rkids rt).
Proof. now destruct rt. Qed.

Lemma erase_top rt :
  character (erase rt) = rchar rt /\ terminal (erase rt) = rterm rt.
Proof. now destruct rt. Qed.

(** Without the references, [rinsert] is the walk of [insert] on a tree. *)
Lemma erase_rinsert s rt next :
  insert_loop s (erase rt) = Ok (erase (fst (rinsert s rt next))).
Proof.
  revert rt next. induction s as [|c s IH]; intros rt next.
  - now destruct rt.
  - simpl. unfold has_child, get_child, add_child, has_child.
    rewrite erase_children, mem_map, lookup_map.
    destruct (lookup c (rkids rt)) as [child|] eqn:Hl.
    + rewrite (lookup_mem _ _ Hl). simpl. rewrite (IH child next). simpl.
      destruct (rinsert s child next) as [child' next']. simpl.
      unfold store_child. rewrite erase_children, store_map.
      now destruct rt.
    + destruct (mem c (rkids rt)) eqn:Hm.
      { apply mem_lookup in Hm as [x Hx]. congruence. }
      simpl.
      change (new_node (char_str c))
        with (erase (RNode next (char_str c) false [])).
      rewrite (IH _ (S next)). simpl.
      destruct (rinsert s _ (S next)) as [child' next']. simpl.
      unfold store_child. simpl.
      rewrite store_app_last by now rewrite mem_map.
      destruct rt. simpl. now rewrite map_app.
Qed.

(** *** Objects in their places *)

Lemma laid_unfold h rt :
  laid h rt <->
  nth_error h (rref rt) = Some (cell rt) /\
  Forall (fun kv => laid h (snd kv)) (rkids rt).
Proof.
  destruct rt as [r ch t kids]. simpl. unfold cell. simpl.
  assert (H : fold_right (fun kv rest => laid h (snd kv) /\ rest) True kids
              <-> Forall (fun kv => laid h (snd kv)) kids).
  { induction kids as [|kv kids IH]; simpl.
    - split; constructor.
    - rewrite IH. split.
      + intros [H1 H2]. now constructor.
      + intros H. inversion H. auto. }
  now rewrite H.
Qed.

(** [laid] looks at the objects of the tree only. *)
Lemma laid_frame h h' rt :
  laid h rt ->
  (forall x, In x (refs rt) -> nth_error h' x = nth_error h x) ->
  laid h' rt.
Proof.
  induction rt as [r ch t kids IH] using rtree_ind.
  intros Hl Hx. apply laid_unfold in Hl as [Hr Hk]. apply laid_unfold.
  simpl in *. split.
  - rewrite Hx; [exact Hr | now left].
  - rewrite Forall_forall in *. intros kv Hin.
    apply IH; [exact Hin | now apply Hk |].
    intros x Hxin. apply Hx. right. apply in_flat_map. eauto.
Qed.

Lemma laid_bound h rt x : laid h rt -> In x (refs rt) -> x < List.length h.
Proof.
  induction rt as [r ch t kids IH] using rtree_ind.
  intros Hl Hx. apply laid_unfold in Hl as [Hr Hk]. simpl in *.
  destruct Hx as [<-|Hx].
  - apply nth_error_Some. congruence.
  - apply in_flat_map in Hx as [kv [Hin Hx]].
    rewrite Forall_forall in *. exact (IH _ Hin (Hk _ Hin) Hx).
Qed.

Lemma laid_read h rt : laid h rt -> nth (rref rt) h Store.blank = cell rt.
Proof.
  intros Hl. apply laid_unfold in Hl as [Hr _]. now apply nth_error_nth.
Qed.

Lemma laid_repr h rt : laid h rt -> repr h (rref rt) (erase rt).
Proof.
  induction rt as [r ch t kids IH] using rtree_ind.
  intros Hl. pose proof (laid_read _ _ Hl) as Hread.
  apply laid_unfold in Hl as [_ Hk]. simpl in *.
  constructor; rewrite Hread; simpl; try reflexivity.
  clear Hread. induction kids as [|kv kids IHk]; simpl; constructor.
  - inversion IH; subst. inversion Hk; subst. simpl. auto.
  - inversion IH; subst. inversion Hk; subst. now apply IHk.
Qed.

Lemma layout_represents st rt t :
  layout st rt -> erase rt = root t -> Store.size st = size t ->
  represents st t.
Proof.
  intros [Hl [_ Hr]] He Hs. split; [|exact Hs].
  rewrite Hr, <- He. now apply laid_repr.
Qed.

(** *** The store under [update] and [alloc] *)

Lemma update_length r o h : List.length (Store.update r o h) = List.length h.
Proof.
  revert r. induction h as [|x h IH]; intros [|r]; simpl; auto.
Qed.

Lemma nth_error_update_eq r o h :
  r < List.length h -> nth_error (Store.update r o h) r = Some o.
Proof.
  revert r. induction h as [|x h IH]; intros [|r] H; simpl in *; try lia.
  - reflexivity.
  - apply IH. lia.
Qed.

Lemma nth_error_update_ne r o h x :
  x <> r -> nth_error (Store.update r o h) x = nth_error h x.
Proof.
  revert r x. induction h as [|y h IH]; intros [|r] [|x] H; simpl; auto.
  contradiction.
Qed.

Lemma NoDup_app_inv (A : Type) (l l' : list A) :
  NoDup (l ++ l') ->
  NoDup l /\ NoDup l' /\ (forall a, In a l -> ~ In a l').
Proof.
  induction l as [|x l IH]; simpl; intros H.
  - repeat split; [constructor | exact H | tauto].
  - inversion H as [|? ? Hx Hnd]; subst. destruct (IH Hnd) as [H1 [H2 H3]].
    rewrite in_app_iff in Hx. repeat split.
    + constructor; tauto.
    + exact H2.
    + intros a [<-|Ha]; [tauto | now apply H3].
Qed.

(** Part [X] of a list without repetition gives way to [X'], made of
    elements of [X] and of new ones. *)
Lemma NoDup_replace (n : nat) (A X X' B : list nat) :
  NoDup (A ++ X ++ B) -> NoDup X' ->
  (forall x, In x X' -> In x X \/ n <= x) ->
  (forall x, In x A \/ In x B -> x < n) ->
  NoDup (A ++ X' ++ B).
Proof.
  intros H HX' Hsub Hold.
  apply NoDup_app_inv in H as [HA [HXB HAXB]].
  apply NoDup_app_inv in HXB as [_ [HB HXB]].
  apply NoDup_app; [exact HA | apply NoDup_app; [exact HX' | exact HB |] |].
  - intros x Hx HxB. destruct (Hsub x Hx) as [Hin|Hge].
    + exact (HXB x Hin HxB).
    + specialize (Hold x (or_intror HxB)). lia.
  - intros x Hx Hin. apply in_app_iff in Hin as [Hin|Hin].
    + destruct (Hsub x Hin) as [Hin'|Hge].
      * apply (HAXB x Hx). apply in_app_iff. now left.
      * specialize (Hold x (or_introl Hx)). lia.
    + apply (HAXB x Hx). apply in_app_iff. now right.
Qed.

(** *** One round of the loop *)

Lemma insert_walk_found c s r st child :
  lookup c (Store.children (nth r (Store.heap st) Store.blank)) = Some child ->
  insert_walk (String c s) r st = insert_walk s child st.
Proof.
  intros H. unfold insert_walk. simpl.
  unfold Store.bind, Store.has_child, Store.get_child, Store.bind. simpl.
  now rewrite (lookup_mem _ _ H), H.
Qed.

Lemma insert_walk_new c s r st :
  mem c (Store.children (nth r (Store.heap st) Store.blank)) = false ->
  r < List.length (Store.heap st) ->
  insert_walk (String c s) r st =
  let o := nth r (Store.heap st) Store.blank in
  let child_node := List.length (Store.heap st) in
  insert_walk s child_node
    (Store.mkState
       (Store.update r
          (Store.mkObject (Store.character o) (Store.terminal o)
                          (Store.children o ++ [(c, child_node)]))
          (Store.heap st ++ [Store.mkObject (char_str c) false []]))
       (Store.root st) (Store.size st)).
Proof.
  intros H Hr. unfold insert_walk. simpl.
  unfold Store.bind, Store.has_child, Store.new_node, Store.add_child, Store.bind.
  simpl. rewrite H. simpl. rewrite app_nth1 by exact Hr. now rewrite H.
Qed.

#[local] Arguments laid : simpl never.

Lemma laid_kids_frame h h' (kids : list (ascii * rtree)) :
  Forall (fun kv => laid h (snd kv)) kids ->
  (forall x, In x (flat_map (fun kv => refs (snd kv)) kids) ->
             nth_error h' x = nth_error h x) ->
  Forall (fun kv => laid h' (snd kv)) kids.
Proof.
  intros Hk Hx. rewrite Forall_forall in *. intros kv Hin.
  apply laid_frame with (h := h); [exact (Hk _ Hin)|].
  intros x Hxin. apply Hx.
  apply in_flat_map. eauto.
Qed.

Lemma refs_top rt : In (rref rt) (refs rt).
Proof. destruct rt. now left. Qed.

Lemma refs_kid rt kv x :
  In kv (rkids rt) -> In x (refs (snd kv)) -> In x (refs rt).
Proof.
  destruct rt as [r ch t kids]. simpl. intros Hin Hx. right.
  apply in_flat_map. eauto.
Qed.

(** *** The loop as a whole *)

(** The walk of [insert] takes a store that holds [rt] to one that holds
    [rinsert s rt]: new objects go to the end of the store, and of the
    objects there were only those of [rt] may have changed. *)
Lemma insert_walk_layout s :
  forall rt st,
    laid (Store.heap st) rt -> NoDup (refs rt) ->
    exists st',
      insert_walk s (rref rt) st = (Ok tt, st') /\
      Store.root st' = Store.root st /\
      Store.size st' = Store.size st /\
      laid (Store.heap st') (fst (rinsert s rt (List.length (Store.heap st)))) /\
      NoDup (refs (fst (rinsert s rt (List.length (Store.heap st))))) /\
      List.length (Store.heap st') = snd (rinsert s rt (List.length (Store.heap st))) /\
      List.length (Store.heap st) <= List.length (Store.heap st') /\
      (forall x, x < List.length (Store.heap st) -> ~ In x (refs rt) ->
                 nth_error (Store.heap st') x = nth_error (Store.heap st) x) /\
      (forall x, In x (refs (fst (rinsert s rt (List.length (Store.heap st))))) ->
                 In x (refs rt) \/ List.length (Store.heap st) <= x).
Proof.
  induction s as [|c s IH]; intros rt st Hl Hnd.
  - pose proof (laid_read _ _ Hl) as Hread.
    pose proof (laid_bound _ _ _ Hl (refs_top rt)) as Hr.
    eexists. split.
    { unfold insert_walk, Store.bind, Store.set_terminal, Store.bind. simpl.
      rewrite Hread. reflexivity. }
    apply laid_unfold in Hl as [_ Hk].
    destruct rt as [r ch t kids]. simpl in *.
    inversion Hnd as [|? ? Hnotin _]; subst.
    refine (conj eq_refl (conj eq_refl (conj _ (conj Hnd
             (conj _ (conj _ (conj _ _))))))).
    + apply laid_unfold. simpl. split; [now apply nth_error_update_eq|].
      apply laid_kids_frame with (h := Store.heap st); [exact Hk|].
      intros x Hx.
      apply nth_error_update_ne. now intros ->.
    + apply update_length.
    + now rewrite update_length.
    + intros x _ Hx. apply nth_error_update_ne. intros ->. apply Hx. now left.
    + tauto.
  - pose proof (laid_read _ _ Hl) as Hread.
    pose proof (fun x => laid_bound _ _ x Hl) as Hb.
    pose proof (proj1 (laid_unfold _ _) Hl) as [Hcell Hk].
    destruct rt as [r ch t kids]. unfold cell in Hread, Hcell.
    simpl in Hread, Hcell, Hk, Hnd, Hb |- *.
    destruct (lookup c kids) as [child|] eqn:Hlk.
    + destruct (lookup_split _ _ Hlk) as [k1 [k2 [-> Hstore]]].
      rewrite flat_map_app in Hnd, Hb. simpl in Hnd, Hb.
      apply Forall_app in Hk as [Hk1 Hk2].
      inversion Hk2 as [|? ? Hlc Hk2']; subst. simpl in Hlc. clear Hk2.
      pose proof Hnd as Hnd0.
      inversion Hnd0 as [|? ? Hr Hnd1]; subst. clear Hnd0.
      apply NoDup_app_inv in Hnd1 as [_ [Hnd2 Hd1]].
      apply NoDup_app_inv in Hnd2 as [Hndc [_ Hd2]].
      destruct (IH child st Hlc Hndc)
        as [st' [Hrun [Hroot [Hsize [Hl' [Hnd' [Hlen [Hle [Hframe Hsub]]]]]]]]].
      pose proof (rinsert_top s child (List.length (Store.heap st))) as [Htop _].
      destruct (rinsert s child (List.length (Store.heap st))) as [child' next'].
      simpl in Hl', Hnd', Hlen, Hsub, Htop |- *.
      exists st'.
      refine (conj _ (conj Hroot (conj Hsize (conj _ (conj _
               (conj Hlen (conj Hle (conj _ _)))))))).
      * rewrite <- Hrun. apply insert_walk_found.
        rewrite Hread. simpl. now rewrite lookup_map, Hlk.
      * rewrite Hstore. apply laid_unfold. simpl. split.
        -- rewrite Hframe; [|apply Hb; now left|].
           ++ rewrite Hcell. unfold cell. simpl.
              rewrite !map_app. simpl. now rewrite Htop.
           ++ intros Hin. apply Hr. rewrite !in_app_iff. tauto.
        -- apply Forall_app. split; [|constructor; [exact Hl'|]].
           ++ apply laid_kids_frame with (h := Store.heap st); [exact Hk1|].
              intros x Hx. apply Hframe.
              ** apply Hb. right. rewrite in_app_iff. tauto.
              ** intros Hin. apply (Hd1 x Hx). rewrite in_app_iff. tauto.
           ++ apply laid_kids_frame with (h := Store.heap st); [exact Hk2'|].
              intros x Hx. apply Hframe.
              ** apply Hb. right. rewrite !in_app_iff. tauto.
              ** intros Hin. exact (Hd2 x Hin Hx).
      * rewrite Hstore. simpl. rewrite flat_map_app. simpl.
        change (NoDup ((r :: flat_map (fun kv => refs (snd kv)) k1)
                       ++ refs child' ++ flat_map (fun kv => refs (snd kv)) k2)).
        apply NoDup_replace
          with (n := List.length (Store.heap st)) (X := refs child);
          [exact Hnd | exact Hnd' | exact Hsub |].
        intros x Hx. apply Hb. simpl in Hx. rewrite !in_app_iff. tauto.
      * intros x Hx Hnin. apply Hframe; [exact Hx|].
        intros Hin. apply Hnin. right. rewrite flat_map_app. simpl.
        rewrite !in_app_iff. tauto.
      * rewrite Hstore. simpl. rewrite !flat_map_app. simpl.
        intros x Hx. rewrite !in_app_iff in *.
        destruct Hx as [Hx|[Hx|[Hx|Hx]]]; try tauto.
        destruct (Hsub x Hx); tauto.
    + assert (Hm : mem c kids = false).
      { destruct (mem c kids) eqn:E; [|reflexivity].
        apply mem_lookup in E as [x Hx]. congruence. }
      assert (Hr : r < List.length (Store.heap st)) by (apply Hb; now left).
      inversion Hnd as [|? ? Hrk Hndk]; subst.
      set (len := List.length (Store.heap st)) in *.
      set (o := Store.mkObject ch t
                  (map (fun kv => (fst kv, rref (snd kv))) kids ++ [(c, len)])).
      set (st2 := Store.mkState
                    (Store.update r o
                       (Store.heap st ++ [Store.mkObject (char_str c) false []]))
                    (Store.root st) (Store.size st)).
      assert (Hlen2 : List.length (Store.heap st2) = S len).
      { simpl. rewrite update_length, length_app. simpl. fold len. lia. }
      assert (Hnew : laid (Store.heap st2) (RNode len (char_str c) false [])).
      { apply laid_unfold. simpl. split; [|constructor].
        rewrite nth_error_update_ne by lia.
        rewrite nth_error_app2 by (fold len; lia). fold len.
        now rewrite Nat.sub_diag. }
      assert (Hnd1 : NoDup (refs (RNode len (char_str c) false []))).
      { simpl. repeat constructor. simpl. tauto. }
      destruct (IH _ st2 Hnew Hnd1)
        as [st' [Hrun [Hroot [Hsize [Hl' [Hnd' [Hlen [Hle [Hframe Hsub]]]]]]]]].
      rewrite Hlen2 in *.
      pose proof (rinsert_top s (RNode len (char_str c) false []) (S len))
        as [Htop _].
      destruct (rinsert s (RNode len (char_str c) false []) (S len))
        as [child' next'].
      simpl in Hl', Hnd', Hlen, Hsub, Htop, Hframe |- *.
      assert (Hold : forall x, x < len -> x <> r ->
                nth_error (Store.heap st') x = nth_error (Store.heap st) x).
      { intros x Hx Hne. rewrite Hframe by (try lia; intros [<-|[]]; lia).
        simpl. rewrite nth_error_update_ne by exact Hne.
        apply nth_error_app1. exact Hx. }
      exists st'.
      refine (conj _ (conj Hroot (conj Hsize (conj _ (conj _
               (conj Hlen (conj _ (conj _ _)))))))).
      * rewrite <- Hrun. rewrite insert_walk_new.
        -- simpl. rewrite Hread. reflexivity.
        -- rewrite Hread. simpl. now rewrite mem_map.
        -- exact Hr.
      * apply laid_unfold. simpl. split.
        -- rewrite Hframe by (try lia; intros [<-|[]]; lia).
           simpl. rewrite nth_error_update_eq
             by (rewrite length_app; simpl; lia).
           unfold cell, o. simpl. rewrite map_app. simpl. now rewrite Htop.
        -- apply Forall_app. split; [|repeat constructor; exact Hl'].
           apply laid_kids_frame with (h := Store.heap st); [exact Hk|].
           intros x Hx. apply Hold.
           ++ apply Hb. now right.
           ++ intros ->. contradiction.
      * rewrite flat_map_app. simpl. rewrite app_nil_r.
        change (NoDup ((r :: flat_map (fun kv => refs (snd kv)) kids)
                       ++ refs child')).
        apply NoDup_app; [exact Hnd | exact Hnd' |].
        intros x Hx Hx'. apply Hb in Hx. destruct (Hsub x Hx') as [[<-|[]]|Hge]; lia.
      * lia.
      * intros x Hx Hnin. apply Hold; [exact Hx|].
        intros ->. apply Hnin. now left.
      * rewrite flat_map_app. simpl. rewrite app_nil_r.
        intros x Hx. rewrite in_app_iff in Hx.
        destruct Hx as [Hx|[Hx|Hx]]; try tauto.
        destruct (Hsub x Hx) as [[<-|[]]|Hge]; right; lia.
Qed.

(** *** [insert] and the constructor *)

Lemma store_insert_eq s st :
  Store.insert s st =
  match Store.contains s st with
  | (Ok already_exists, st1) =>
      match insert_walk s (Store.root st1) st1 with
      | (Ok _, st2) =>
          if negb already_exists
          then (Ok tt, Store.mkState (Store.heap st2) (Store.root st2)
                                     (Store.size st2 + 1))
          else (Ok tt, st2)
      | (Raise e, st2) => (Raise e, st2)
      end
  | (Raise e, st1) => (Raise e, st1)
  end.
Proof.
  unfold Store.insert, insert_walk, Store.bind, Store.get_root.
  destruct (Store.contains s st) as [[b|e] st1]; [|reflexivity].
  destruct (Store.insert_loop s (Store.root st1) st1) as [[r|e] st2];
    [|reflexivity].
  destruct (Store.set_terminal r st2) as [[[]|e] st3]; [|reflexivity].
  now destruct b.
Qed.

(** On a state that holds a tree, [insert] on the store does what [insert]
    does on the tree. *)
Lemma insert_agree st rt t s :
  layout st rt -> erase rt = root t -> Store.size st = size t ->
  exists st' rt' t',
    Store.insert s st = (Ok tt, st') /\
    insert t s = Ok t' /\
    layout st' rt' /\ erase rt' = root t' /\ Store.size st' = size t'.
Proof.
  intros Hlay He Hs. pose proof (layout_represents t Hlay He Hs) as Hrep.
  destruct Hlay as [Hl [Hnd Hroot]].
  destruct (queries_agree s Hrep (le_n _)) as [Hc _].
  pose proof (frames_contains s st) as Hfr.
  destruct (insert_walk_layout s rt st Hl Hnd)
    as [st' [Hrun [Hroot' [Hsize' [Hl' [Hnd' _]]]]]].
  pose proof (rinsert_top s rt (List.length (Store.heap st))) as [Htop _].
  pose proof (erase_rinsert s rt (List.length (Store.heap st))) as Hi.
  set (rt' := fst (rinsert s rt (List.length (Store.heap st)))) in *.
  rewrite He in Hi. rewrite store_insert_eq.
  destruct (Store.contains s st) as [res st0]. simpl in Hc, Hfr. subst st0 res.
  unfold insert. rewrite contains_accepts. simpl.
  rewrite Hroot, Hrun, Hi. simpl.
  destruct (accepts s (root t)); simpl.
  - exists st', rt', (mkTree (erase rt') (size t)).
    repeat split; try assumption; simpl; congruence.
  - exists (Store.mkState (Store.heap st') (Store.root st') (Store.size st' + 1)),
           rt', (mkTree (erase rt') (size t + 1)).
    repeat split; try assumption; simpl; congruence.
Qed.

Lemma insert_all_agree l :
  forall st rt t,
    layout st rt -> erase rt = root t -> Store.size st = size t ->
    exists st' rt' t',
      Store.insert_all l st = (Ok tt, st') /\
      insert_all t l = Ok t' /\
      layout st' rt' /\ erase rt' = root t' /\ Store.size st' = size t'.
Proof.
  induction l as [|s l IH]; intros st rt t Hlay He Hs; simpl.
  - exists st, rt, t. auto.
  - destruct (insert_agree t s Hlay He Hs)
      as [st1 [rt1 [t1 [Hrun [Hins [Hlay1 [He1 Hs1]]]]]]].
    unfold Store.bind. rewrite Hrun, Hins. simpl.
    exact (IH _ _ _ Hlay1 He1 Hs1).
Qed.

(** The two constructors build the same tree, and the queries answer alike
    on it. *)
Lemma init_agree strings :
  exists st rt t,
    Store.__init__ strings = (Ok tt, st) /\
    __init__ strings = Ok t /\
    layout st rt /\ erase rt = root t /\ Store.size st = size t /\
    represents st t.
Proof.
  assert (H0 : layout Store.empty_state (RNode 0 START_CHARACTER false [])).
  { split; [|split; [|reflexivity]].
    - apply laid_unfold. simpl. split; [reflexivity | constructor].
    - simpl. repeat constructor. simpl. tauto. }
  destruct strings as [l|]; simpl.
  - destruct (insert_all_agree l empty_tree H0 eq_refl eq_refl)
      as [st [rt [t [Hrun [Hins [Hlay [He Hs]]]]]]].
    exists st, rt, t.
    exact (conj Hrun (conj Hins (conj Hlay (conj He (conj Hs
             (layout_represents t Hlay He Hs)))))).
  - exists Store.empty_state, (RNode 0 START_CHARACTER false []), empty_tree.
    exact (conj eq_refl (conj eq_refl (conj H0 (conj eq_refl (conj eq_refl
             (layout_represents empty_tree H0 eq_refl eq_refl)))))).
Qed.

(** The scenario of the specification, on the store. *)
Example demo_state_built :
  Store.__init__ (Some ["ABC"; "ABD"; "A"; "XYZ"]%string) = (Ok tt, demo_state) /\
  Store.size demo_state = 4 /\
  List.length (Store.heap demo_state) = 8.
Proof. repeat split. Qed.

Example demo_state_queries :
  fst (Store.strings 4 demo_state) = Ok ["A"; "ABC"; "ABD"; "XYZ"]%string /\
  fst (Store.complete 4 "AB" demo_state) = Ok ["ABC"; "ABD"]%string /\
  fst (Store.contains "AB" demo_state) = Ok false /\
  fst (Store.contains "A" demo_state) = Ok true.
Proof. repeat split. Qed.

(** ** No lookup error on the store *)

(** The lemmas of this part hold of every state, also of one that holds no
    tree. *)

Lemma store_find_loop_returns s node depth st :
  exists node' depth', Store.find_loop s node depth st = (Ok (node', depth'), st).
Proof.
  revert node depth. induction s as [|c s IH]; intros node depth.
  - simpl. unfold Store.ret. eauto.
  - rewrite store_find_loop_step. simpl.
    destruct (mem c _) eqn:Hm; [|eauto].
    apply mem_lookup in Hm as [child ->]. apply IH.
Qed.

Lemma store_find_node_returns s st :
  exists node depth, Store._find_node s st = (Ok (node, depth), st).
Proof.
  destruct s as [|c s].
  - exists (Store.root st), 0. reflexivity.
  - exact (store_find_loop_returns (String c s) (Store.root st) 0 st).
Qed.

Lemma store_contains_returns s st :
  exists b, Store.contains s st = (Ok b, st).
Proof.
  unfold Store.contains, Store.bind at 1.
  destruct (store_find_node_returns s st) as [node [depth ->]].
  destruct (depth =? String.length s)%nat; [|unfold Store.ret; eauto].
  unfold Store.bind, Store.is_terminal, Store.bind, Store.read, Store.ret.
  destruct (Store.terminal _); eauto.
Qed.

(** A new object has no children, so a node that had no child for [c]
    before the allocation has none after it. *)
Lemma mem_after_alloc c r h ch :
  mem c (Store.children (nth r h Store.blank)) = false ->
  mem c (Store.children (nth r (h ++ [Store.mkObject ch false []]) Store.blank))
  = false.
Proof.
  intros H. destruct (Nat.lt_trichotomy r (List.length h)) as [Hlt|[->|Hgt]].
  - now rewrite app_nth1.
  - rewrite app_nth2, Nat.sub_diag by lia. reflexivity.
  - rewrite nth_overflow; [reflexivity|]. rewrite length_app. simpl. lia.
Qed.

Lemma store_insert_loop_returns s :
  forall node st, exists node' st', Store.insert_loop s node st = (Ok node', st').
Proof.
  induction s as [|c s IH]; intros node st.
  - simpl. unfold Store.ret. eauto.
  - simpl. unfold Store.bind at 1. unfold Store.has_child, Store.bind at 1.
    simpl. destruct (mem c _) eqn:Hm.
    + unfold Store.bind at 1. unfold Store.get_child, Store.bind at 1. simpl.
      apply mem_lookup in Hm as [child ->]. apply IH.
    + unfold Store.bind at 1. simpl. unfold Store.bind at 1.
      unfold Store.add_child, Store.bind at 1. simpl.
      rewrite (mem_after_alloc _ _ _ _ Hm). simpl. apply IH.
Qed.

Lemma store_insert_returns s st : exists st', Store.insert s st = (Ok tt, st').
Proof.
  rewrite store_insert_eq.
  destruct (store_contains_returns s st) as [b ->].
  unfold insert_walk, Store.bind.
  destruct (store_insert_loop_returns s (Store.root st) st) as [node [st1 ->]].
  unfold Store.set_terminal, Store.bind. simpl.
  destruct b; simpl; eauto.
Qed.

(** [_traverse] calls no accessor that can fail: it lists the strings or
    runs out of fuel. *)
Lemma store_traverse_outcome (St : Type) fuel :
  forall node prefix (visit : string -> St -> St) acc st,
    (exists acc', fst (Store._traverse fuel node prefix visit acc st) = Ok acc') \/
    fst (Store._traverse fuel node prefix visit acc st) = Raise RecursionError.
Proof.
  induction fuel as [|fuel IH]; intros node prefix visit acc st; [now right|].
  rewrite store_traverse_step. simpl.
  generalize (if Store.terminal (nth node (Store.heap st) Store.blank)
              then visit prefix acc else acc).
  induction (Store.children (nth node (Store.heap st) Store.blank))
    as [|kv kids IHk]; intros acc0; simpl.
  - left. eauto.
  - unfold Store.bind.
    pose proof (frames_traverse fuel (snd kv)
                  (prefix ++ char_str (fst kv))%string visit acc0 st) as Hfr.
    destruct (IH (snd kv) (prefix ++ char_str (fst kv))%string visit acc0 st)
      as [[acc1 H]|H];
      destruct (Store._traverse fuel (snd kv) _ visit acc0 st) as [res st1];
      simpl in H, Hfr; subst.
    + apply IHk.
    + now right.
Qed.

Lemma store_complete_outcome fuel prefix st :
  (exists l, fst (Store.complete fuel prefix st) = Ok l) \/
  fst (Store.complete fuel prefix st) = Raise RecursionError.
Proof.
  unfold Store.complete, Store.bind.
  destruct (store_find_node_returns prefix st) as [node [depth ->]].
  destruct (depth =? String.length prefix)%nat.
  - apply store_traverse_outcome.
  - left. eexists. reflexivity.
Qed.

Lemma store_strings_outcome fuel st :
  (exists l, fst (Store.strings fuel st) = Ok l) \/
  fst (Store.strings fuel st) = Raise RecursionError.
Proof. unfold Store.strings, Store.bind. simpl. apply store_traverse_outcome. Qed.

(** ** Stored strings below a prefix *)

Lemma contains_true t s : contains t s = Ok true <-> accepts s (root t) = true.
Proof. rewrite contains_accepts. split; congruence. Qed.

Lemma wf_path node s m : wf_node node = true -> path node s m -> wf_node m = true.
Proof.
  intros Hwf H. induction H as [n|n c child s m Hl _ IH]; [exact Hwf|].
  apply IH. exact (wf_node_child _ _ Hwf Hl).
Qed.

(** What [words] lists below the node a prefix leads to: the stored strings
    that start with the prefix. *)
Lemma words_stored t prefix m s :
  wf_tree t = true -> path (root t) prefix m ->
  In s (words m prefix) <->
  contains t s = Ok true /\ String.prefix prefix s = true.
Proof.
  intros Hwf Hp. rewrite contains_true. split.
  - intros H. apply (words_accepts _ _ _ (wf_path Hwf Hp)) in H as [r [-> Hr]].
    split; [now rewrite (accepts_append _ Hp) | apply prefix_append].
  - intros [Ha Hpre]. apply prefix_inv in Hpre as [r ->].
    rewrite (accepts_append _ Hp) in Ha. now apply accepts_words.
Qed.

(** ** More on [insert] *)

Unset Implicit Arguments.

(** A string that is stored is inserted without any change to the tree. *)
Lemma insert_loop_stored s node : accepts s node = true -> insert_loop s node = Ok node.
Proof.
  revert node. induction s as [|c s IH]; intros node H.
  - destruct node as [ch t kids]. simpl in *. now subst t.
  - simpl in *. destruct (lookup c (children node)) as [child|] eqn:Hl;
      [|discriminate].
    unfold has_child, get_child. rewrite (lookup_mem _ _ Hl), Hl. simpl.
    rewrite (IH _ H). simpl. unfold store_child.
    rewrite (store_same _ _ Hl). now destruct node.
Qed.

(** In a well-formed tree the listed strings are the stored ones. *)
Lemma words_members node q :
  wf_node node = true -> In q (words node "") <-> accepts q node = true.
Proof.
  intros Hwf. split.
  - intros H. apply (words_accepts _ _ _ Hwf) in H as [r [-> Hr]]. exact Hr.
  - intros H. exact (accepts_words q node "" H).
Qed.

Lemma strings_members t q :
  wf_tree t = true -> In q (strings t) <-> accepts q (root t) = true.
Proof. rewrite strings_words. apply words_members. Qed.

Lemma strings_NoDup t : wf_tree t = true -> NoDup (strings t).
Proof. rewrite strings_words. apply words_NoDup. Qed.

Lemma strings_insert_members t s t' :
  wf_tree t = true -> insert t s = Ok t' ->
  forall q, In q (strings t') <-> q = s \/ In q (strings t).
Proof.
  intros Hwf Hi q. pose proof (wf_insert _ _ Hwf Hi) as Hwf'.
  rewrite (strings_members t q Hwf), (strings_members t' q Hwf').
  destruct (insert_eq t s) as [root' [Hl Ht]]. rewrite Ht in Hi.
  injection Hi as <-. simpl.
  rewrite (accepts_insert_loop _ _ q Hl), orb_true_iff.
  now rewrite String.eqb_eq.
Qed.

(** [size] counts the stored strings, before [insert] and after. *)
Lemma size_insert t s t' :
  wf_tree t = true -> size t = List.length (strings t) -> insert t s = Ok t' ->
  size t' = List.length (strings t').
Proof.
  intros Hwf Hsz Hi. pose proof (wf_insert _ _ Hwf Hi) as Hwf'.
  pose proof (strings_insert_members t s _ Hwf Hi) as Hmem.
  destruct (insert_eq t s) as [root' [Hl Ht]]. rewrite Ht in Hi.
  injection Hi as <-. simpl.
  destruct (accepts s (root t)) eqn:Ha.
  - rewrite (insert_loop_stored _ _ Ha) in Hl. injection Hl as <-.
    rewrite Hsz. reflexivity.
  - assert (Hp : Permutation (s :: strings t)
                   (strings (mkTree root' (size t + 1)))).
    { apply NoDup_Permutation.
      - constructor; [|now apply strings_NoDup].
        rewrite (strings_members t s Hwf). congruence.
      - now apply strings_NoDup.
      - intros q. rewrite Hmem. simpl. intuition congruence. }
    apply Permutation_length in Hp. simpl in Hp. rewrite <- Hp, Hsz. lia.
Qed.

Lemma size_insert_all l :
  forall t t',
    wf_tree t = true -> size t = List.length (strings t) ->
    insert_all t l = Ok t' ->
    wf_tree t' = true /\ size t' = List.length (strings t').
Proof.
  induction l as [|s l IH]; simpl; intros t t' Hwf Hsz.
  - intros [= <-]. auto.
  - destruct (insert t s) as [t1|] eqn:E; simpl; [|discriminate].
    apply IH; [exact (wf_insert _ _ Hwf E) | exact (size_insert _ _ _ Hwf Hsz E)].
Qed.

(** What the constructor builds from a list: a well-formed tree that stores
    the strings of the list, each once, and counts them. *)
Lemma init_spec l :
  exists t,
    __init__ (Some l) = Ok t /\
    wf_tree t = true /\
    size t = List.length (strings t) /\
    NoDup (strings t) /\
    (forall q, In q (strings t) <-> In q l) /\
    (forall q, accepts q (root t) = existsb (String.eqb q) l).
Proof.
  simpl. destruct (insert_all_returns l empty_tree) as [t Ht]. exists t.
  destruct (size_insert_all l empty_tree t eq_refl eq_refl Ht) as [Hwf Hsz].
  assert (Ha : forall q, accepts q (root t) = existsb (String.eqb q) l).
  { intros q. rewrite (accepts_insert_all _ _ q Ht).
    change (root empty_tree) with (new_node START_CHARACTER).
    now rewrite accepts_new_node, orb_false_r. }
  repeat split; try assumption.
  - now apply strings_NoDup.
  - rewrite (strings_members t q Hwf), Ha. apply existsb_eqb_In.
  - rewrite (strings_members t q Hwf), Ha. apply existsb_eqb_In.
Qed.

(** ** The paths of a tree *)

Lemma has_path_path p node :
  has_path p node = true <-> exists m, path node p m.
Proof.
  revert node. induction p as [|c p IH]; intros node; simpl.
  - split; [intros _; exists node; constructor | reflexivity].
  - destruct (lookup c (children node)) as [child|] eqn:Hl.
    + rewrite IH. split; intros [m Hm].
      * exists m. eapply path_step; eassumption.
      * inversion Hm as [|? ? child' ? ? Hl' Hp']; subst.
        rewrite Hl in Hl'. injection Hl' as <-. now exists m.
    + split; [discriminate|]. intros [m Hm]. inversion Hm; subst. congruence.
Qed.

Lemma has_path_new_node p ch :
  has_path p (new_node ch) = match p with EmptyString => true | _ => false end.
Proof. now destruct p. Qed.

(** After the walk of [insert] for [s] the paths below the node are those
    there were and the prefixes of [s]. *)
Lemma has_path_insert_loop s :
  forall node node' p,
    insert_loop s node = Ok node' ->
    has_path p node' = String.prefix p s || has_path p node.
Proof.
  induction s as [|c s IH]; intros node node' p H.
  - simpl in H. injection H as <-. destruct p as [|c' p']; simpl.
    + reflexivity.
    + reflexivity.
  - destruct (insert_loop_step c s node)
      as [child [child' [kids' [Hi [Hn Hk]]]]].
    rewrite Hn in H. injection H as <-.
    destruct p as [|c' p']; [reflexivity|]. simpl.
    destruct (ascii_dec c' c) as [->|Hne].
    + destruct Hk as [[Hl ->]|[Hm [-> ->]]].
      * rewrite (lookup_store_eq _ _ _ (lookup_mem _ _ Hl)), Hl.
        apply (IH _ _ p' Hi).
      * rewrite lookup_app, (mem_false_lookup _ _ Hm). simpl.
        rewrite Ascii.eqb_refl, (IH _ _ p' Hi), has_path_new_node.
        destruct p' as [|x p'']; [now destruct s | reflexivity].
    + destruct Hk as [[Hl ->]|[Hm [-> ->]]].
      * now rewrite (lookup_store_ne _ _ Hne).
      * rewrite lookup_app. destruct (lookup c' (children node)); [reflexivity|].
        simpl. now destruct (Ascii.eqb_spec c' c).
Qed.

Lemma has_path_insert_all l :
  forall t t' p,
    insert_all t l = Ok t' ->
    has_path p (root t') = existsb (String.prefix p) l || has_path p (root t).
Proof.
  induction l as [|s l IH]; simpl; intros t t' p.
  - now intros [= ->].
  - destruct (insert_eq t s) as [root' [Hi ->]]. simpl. intros H.
    rewrite (IH _ _ p H). simpl. rewrite (has_path_insert_loop s _ _ p Hi).
    now rewrite orb_assoc, (orb_comm (existsb _ l)).
Qed.

(** *** Height *)

Lemma height_path_length node p m :
  path node p m -> String.length p + height m <= height node.
Proof.
  induction 1 as [n|n c child s m Hl _ IH]; simpl; [lia|].
  apply height_child in Hl. lia.
Qed.

Lemma max_attained (A : Type) (f : A -> nat) (l : list A) :
  l = [] \/
  exists x, In x l /\ fold_right (fun x n => Nat.max (f x) n) 0 l = f x.
Proof.
  induction l as [|a l IH]; [now left|]. right. simpl.
  destruct IH as [->|[x [Hin Hx]]].
  - exists a. split; [now left | simpl; lia].
  - rewrite Hx. destruct (Nat.max_spec (f a) (f x)) as [[_ ->]|[_ ->]].
    + exists x. auto.
    + exists a. auto.
Qed.

(** In a well-formed tree some path is as long as the tree is high. *)
Lemma height_attained node :
  wf_node node = true ->
  exists p m, path node p m /\ height node = S (String.length p).
Proof.
  induction node as [ch t kids IH] using PrefixTreeNode_ind.
  intros Hwf. simpl in Hwf. apply andb_prop in Hwf as [Hu Hall].
  destruct (max_attained _ (fun kv : ascii * PrefixTreeNode => height (snd kv)) kids)
    as [->|[[c child] [Hin Hmax]]].
  - exists ""%string, (mkNode ch t []). split; [constructor | reflexivity].
  - rewrite Forall_forall in IH. rewrite forallb_forall in Hall.
    destruct (IH _ Hin (Hall _ Hin)) as [p [m [Hp Hh]]]. simpl in Hp, Hh.
    exists (String c p), m. split.
    + eapply path_step; [|exact Hp]. simpl. now apply In_lookup.
    + simpl. rewrite Hmax. simpl. now rewrite Hh.
Qed.

Lemma max_length_ge l q : In q l -> String.length q <= max_length l.
Proof.
  induction l as [|s l IH]; simpl; [contradiction|].
  unfold max_length. simpl. fold (max_length l).
  intros [->|H]; [lia|]. specialize (IH H). lia.
Qed.

Lemma max_length_le l k :
  (forall q, In q l -> String.length q <= k) -> max_length l <= k.
Proof.
  induction l as [|s l IH]; intros H; [unfold max_length; simpl; lia|].
  unfold max_length. simpl. fold (max_length l).
  apply Nat.max_lub; [apply H; now left | apply IH; intros q Hq; apply H; now right].
Qed.

(** *** Counting nodes *)

Lemma count_app (kids kids' : list (ascii * PrefixTreeNode)) :
  fold_right (fun kv n => node_count (snd kv) + n) 0 (kids ++ kids')
  = fold_right (fun kv n => node_count (snd kv) + n) 0 kids
    + fold_right (fun kv n => node_count (snd kv) + n) 0 kids'.
Proof. induction kids as [|kv kids IH]; simpl; [reflexivity | rewrite IH; lia]. Qed.

Lemma count_store c x child (kids : list (ascii * PrefixTreeNode)) :
  lookup c kids = Some child ->
  fold_right (fun kv n => node_count (snd kv) + n) 0 (store c x kids)
    + node_count child
  = fold_right (fun kv n => node_count (snd kv) + n) 0 kids + node_count x.
Proof.
  induction kids as [|[k y] kids IH]; simpl; [discriminate|].
  destruct (Ascii.eqb c k); simpl.
  - intros [= ->]. lia.
  - intros H. specialize (IH H). lia.
Qed.

Lemma find_loop_new_node s ch depth :
  find_loop s (new_node ch) depth = Ok (new_node ch, depth).
Proof. now destruct s. Qed.

(** The walk of [insert] adds one node for every character that the walk of
    [_find_node] does not match. *)
Lemma insert_loop_count s :
  forall node node' depth m depth',
    insert_loop s node = Ok node' ->
    find_loop s node depth = Ok (m, depth') ->
    node_count node' + depth' = node_count node + String.length s + depth.
Proof.
  induction s as [|c s IH]; intros node node' depth m depth' Hi Hf.
  - simpl in Hi, Hf. injection Hi as <-. injection Hf as _ <-.
    destruct node. simpl. lia.
  - destruct (insert_loop_step c s node)
      as [child [child' [kids' [Hc [Hn Hk]]]]].
    rewrite Hn in Hi. injection Hi as <-. simpl in Hf.
    unfold has_child, get_child in Hf.
    destruct node as [ch t kids]. simpl in *.
    destruct Hk as [[Hl ->]|[Hm [-> ->]]].
    + rewrite (lookup_mem _ _ Hl), Hl in Hf. simpl in Hf.
      pose proof (IH _ _ _ _ _ Hc Hf) as H.
      pose proof (count_store c child' child kids Hl). lia.
    + rewrite Hm in Hf. injection Hf as _ <-.
      pose proof (IH _ _ 0 _ _ Hc (find_loop_new_node s (char_str c) 0)) as H.
      rewrite count_app. simpl in *. lia.
Qed.

(** ** [complete] as a filter *)

Lemma filter_all (A : Type) (f : A -> bool) (l : list A) :
  (forall x, In x l -> f x = true) -> filter f l = l.
Proof.
  induction l as [|a l IH]; simpl; intros H; [reflexivity|].
  rewrite (H a (or_introl eq_refl)), IH; [reflexivity|]. intros x Hx. apply H. now right.
Qed.

Lemma filter_none (A : Type) (f : A -> bool) (l : list A) :
  (forall x, In x l -> f x = false) -> filter f l = [].
Proof.
  induction l as [|a l IH]; simpl; intros H; [reflexivity|].
  rewrite (H a (or_introl eq_refl)). apply IH. intros x Hx. apply H. now right.
Qed.

Lemma filter_flat_map (A B : Type) (f : B -> bool) (g : A -> list B) (l : list A) :
  filter f (flat_map g l) = flat_map (fun a => filter f (g a)) l.
Proof.
  induction l as [|a l IH]; simpl; [reflexivity|]. now rewrite filter_app, IH.
Qed.

(** Of the blocks the children contribute, the one of the child for [c]. *)
Lemma flat_map_pick (B : Type) c (G : ascii -> PrefixTreeNode -> list B)
  (kids : list (ascii * PrefixTreeNode)) :
  keys_unique kids = true ->
  flat_map (fun kv => if Ascii.eqb (fst kv) c then G (fst kv) (snd kv) else []) kids
  = match lookup c kids with Some child => G c child | None => [] end.
Proof.
  induction kids as [|[k x] kids IH]; simpl; [reflexivity|].
  intros Hu. apply andb_prop in Hu as [Hk Hu]. rewrite (IH Hu).
  rewrite (Ascii.eqb_sym c k).
  destruct (Ascii.eqb_spec k c) as [->|Hne]; [|reflexivity].
  destruct (mem c kids) eqn:Hm; [discriminate|].
  rewrite (mem_false_lookup _ _ Hm). apply app_nil_r.
Qed.

(** Of the strings listed below a node, those that start with the prefix
    come with followed by [p] are the ones listed below the node [p] leads
    to. *)
Lemma filter_words p :
  forall node q,
    wf_node node = true ->
    filter (String.prefix (q ++ p)) (words node q)
    = match descend p node with
      | Some m => words m (q ++ p)
      | None => []
      end.
Proof.
  induction p as [|c p IH]; intros node q Hwf.
  - rewrite append_nil_r. apply filter_all. intros x Hx.
    apply words_prefix in Hx as [r ->]. apply prefix_append.
  - destruct node as [ch t kids]. simpl in Hwf.
    apply andb_prop in Hwf as [Hu Hall]. simpl words. rewrite filter_app.
    replace (filter (String.prefix (q ++ String c p)) (if t then [q] else []))
      with (@nil string).
    2:{ destruct t; [|reflexivity]. simpl.
        destruct (String.prefix (q ++ String c p) q) eqn:E; [|reflexivity].
        apply prefix_length in E. rewrite append_length in E. simpl in E. lia. }
    simpl app. rewrite filter_flat_map.
    rewrite flat_map_ext with
      (g := fun kv => if Ascii.eqb (fst kv) c
                      then filter (String.prefix (q ++ String c p))
                             (words (snd kv) (q ++ char_str (fst kv)))
                      else []).
    2:{ intros [k x]. simpl. destruct (Ascii.eqb_spec k c) as [->|Hne];
          [reflexivity|].
        apply filter_none. intros y Hy. apply words_prefix in Hy as [r ->].
        rewrite append_char, prefix_append_l. simpl.
        destruct (ascii_dec c k); [congruence | reflexivity]. }
    rewrite (flat_map_pick _ c
               (fun k x => filter (String.prefix (q ++ String c p))
                             (words x (q ++ char_str k))) kids Hu).
    simpl. destruct (lookup c kids) as [child|] eqn:Hl; [|reflexivity].
    rewrite <- (append_char q c p). apply IH.
    rewrite forallb_forall in Hall. exact (Hall _ (lookup_In _ _ Hl)).
Qed.

Lemma descend_path p node m : descend p node = Some m <-> path node p m.
Proof.
  revert node. induction p as [|c p IH]; intros node; simpl.
  - split; [intros [= <-]; constructor | intros H; now inversion H].
  - destruct (lookup c (children node)) as [child|] eqn:Hl.
    + rewrite IH. split; intros H.
      * eapply path_step; eassumption.
      * inversion H as [|? ? child' ? ? Hl' Hp']; subst.
        rewrite Hl in Hl'. now injection Hl' as <-.
    + split; [discriminate|]. intros H. inversion H; subst. congruence.
Qed.

(** ** The longest prefix with a path *)

Lemma substring_append_short k (p r : string) :
  k <= String.length p ->
  exists p', p = (substring 0 k (p ++ r) ++ p')%string.
Proof.
  revert k. induction p as [|c p IH]; intros k Hk; simpl in *.
  - replace k with 0 by lia. exists ""%string. now destruct r.
  - destruct k as [|k]; [now exists (String c p)|].
    destruct (IH k) as [p' Hp']; [lia|]. exists p'. simpl. now rewrite <- Hp'.
Qed.

Lemma substring_append_long k (p : string) c (r : string) :
  String.length p < k ->
  exists r', substring 0 k (p ++ String c r) = (p ++ String c r')%string.
Proof.
  revert k. induction p as [|x p IH]; intros k Hk; simpl in *.
  - destruct k as [|k]; [lia|]. now exists (substring 0 k r).
  - destruct k as [|k]; [lia|]. destruct (IH k) as [r' Hr']; [lia|].
    exists r'. now rewrite Hr'.
Qed.


(** ** What [insert] keeps of the store *)

Lemma object_le_refl o : object_le o o.
Proof. repeat split; auto. exists []. now rewrite app_nil_r. Qed.

Lemma object_le_trans o1 o2 o3 : object_le o1 o2 -> object_le o2 o3 -> object_le o1 o3.
Proof.
  intros [Hc [Ht [m Hm]]] [Hc' [Ht' [m' Hm']]]. repeat split.
  - congruence.
  - auto.
  - exists (m ++ m'). now rewrite Hm', Hm, app_assoc.
Qed.

Lemma heap_le_refl h : heap_le h h.
Proof. split; [lia|]. intros r _. apply object_le_refl. Qed.

Lemma heap_le_trans h1 h2 h3 : heap_le h1 h2 -> heap_le h2 h3 -> heap_le h1 h3.
Proof.
  intros [Hl H] [Hl' H']. split; [lia|]. intros r Hr.
  eapply object_le_trans; [apply H; exact Hr | apply H'; lia].
Qed.

Lemma heap_le_alloc h o : heap_le h (h ++ [o]).
Proof.
  split; [rewrite length_app; lia|]. intros r Hr.
  rewrite app_nth1 by exact Hr. apply object_le_refl.
Qed.

Lemma nth_update_eq r o h :
  r < List.length h -> nth r (Store.update r o h) Store.blank = o.
Proof. intros H. apply nth_error_nth. now apply nth_error_update_eq. Qed.

Lemma nth_update_ne r o h x :
  x <> r -> nth x (Store.update r o h) Store.blank = nth x h Store.blank.
Proof.
  intros H. rewrite <- !nth_default_eq. unfold nth_default.
  now rewrite nth_error_update_ne.
Qed.

Lemma heap_le_update r o h :
  object_le (nth r h Store.blank) o -> heap_le h (Store.update r o h).
Proof.
  intros Ho. split; [rewrite update_length; lia|]. intros x Hx.
  destruct (Nat.eq_dec x r) as [->|Hne].
  - now rewrite nth_update_eq.
  - rewrite nth_update_ne by exact Hne. apply object_le_refl.
Qed.

Lemma store_insert_loop_step c s node st :
  Store.insert_loop (String c s) node st =
  let o := nth node (Store.heap st) Store.blank in
  if mem c (Store.children o) then
    match lookup c (Store.children o) with
    | Some child => Store.insert_loop s child st
    | None => (Raise (LookupError c), st)
    end
  else
    let child_node := List.length (Store.heap st) in
    let h := Store.heap st ++ [Store.mkObject (char_str c) false []] in
    let o := nth node h Store.blank in
    Store.insert_loop s child_node
      (Store.mkState
         (Store.update node
            (Store.mkObject (Store.character o) (Store.terminal o)
                            (Store.children o ++ [(c, child_node)])) h)
         (Store.root st) (Store.size st)).
Proof.
  simpl. unfold Store.bind at 1. unfold Store.has_child, Store.bind at 1.
  simpl. destruct (mem c _) eqn:Hm.
  - unfold Store.bind, Store.get_child, Store.bind. simpl.
    now destruct (lookup c _).
  - unfold Store.bind at 1. simpl. unfold Store.bind at 1.
    unfold Store.add_child, Store.bind at 1. simpl.
    now rewrite (mem_after_alloc _ _ _ _ Hm).
Qed.

(** The loop of [insert] adds objects and children and changes nothing
    else. *)
Lemma insert_loop_grows s :
  forall node st,
    heap_le (Store.heap st) (Store.heap (snd (Store.insert_loop s node st))) /\
    Store.root (snd (Store.insert_loop s node st)) = Store.root st /\
    Store.size (snd (Store.insert_loop s node st)) = Store.size st.
Proof.
  induction s as [|c s IH]; intros node st.
  - simpl. split; [apply heap_le_refl | auto].
  - rewrite store_insert_loop_step. simpl.
    destruct (mem c _) eqn:Hm.
    + apply mem_lookup in Hm as [child ->]. apply IH.
    + match goal with
      | |- context [Store.insert_loop s ?n ?st2] =>
          destruct (IH n st2) as [Hh [Hr Hs]]; rewrite Hr, Hs
      end.
      split; [|auto].
      eapply heap_le_trans; [|exact Hh]. simpl.
      eapply heap_le_trans; [apply heap_le_alloc|].
      apply heap_le_update. repeat split; auto. eexists. reflexivity.
Qed.


(** ** The enumeration after [insert] *)

Lemma words_new_node ch p : words (new_node ch) p = [].
Proof. reflexivity. Qed.

(** A string that was not stored appears in the enumeration, between the
    strings that were there, which keep their order. *)
Lemma insert_loop_words s :
  forall node node' p,
    accepts s node = false -> insert_loop s node = Ok node' ->
    exists l1 l2,
      words node p = l1 ++ l2 /\ words node' p = l1 ++ (p ++ s)%string :: l2.
Proof.
  induction s as [|c s IH]; intros node node' p Ha Hi.
  - simpl in Hi. injection Hi as <-. destruct node as [ch t kids].
    simpl in Ha. subst t. exists [], (words (mkNode ch false kids) p).
    simpl. now rewrite append_nil_r.
  - destruct (insert_loop_step c s node)
      as [child [child' [kids' [Hc [Hn Hk]]]]].
    rewrite Hn in Hi. injection Hi as <-.
    destruct node as [ch t kids]. simpl in Ha, Hk |- *.
    destruct Hk as [[Hl ->]|[Hm [-> ->]]].
    + rewrite Hl in Ha.
      destruct (IH _ _ (p ++ char_str c)%string Ha Hc) as [a [b [Hw Hw']]].
      destruct (lookup_split _ _ Hl) as [k1 [k2 [-> Hs]]].
      rewrite Hs, !flat_map_app. simpl. rewrite Hw, Hw', append_char.
      exists ((if t then [p] else [])
              ++ flat_map (fun kv => words (snd kv) (p ++ char_str (fst kv))%string) k1
              ++ a),
             (b ++ flat_map (fun kv => words (snd kv) (p ++ char_str (fst kv))%string) k2).
      split; now rewrite <- !app_assoc.
    + destruct (IH _ _ (p ++ char_str c)%string
                  (accepts_new_node s (char_str c)) Hc) as [a [b [Hw Hw']]].
      rewrite words_new_node in Hw. symmetry in Hw.
      apply app_eq_nil in Hw as [-> ->].
      rewrite flat_map_app. simpl. rewrite Hw', app_nil_r, append_char.
      exists ((if t then [p] else [])
              ++ flat_map (fun kv => words (snd kv) (p ++ char_str (fst kv))%string) kids),
             [].
      split; [now rewrite app_nil_r | now rewrite <- app_assoc].
Qed.

(** ** The constructor, once more *)


Lemma complete_descend (t : PrefixTree) (prefix : string) :
  complete t prefix
  = Ok (match descend prefix (root t) with
        | Some m => words m prefix
        | None => []
        end).
Proof.
  destruct (complete_spec t prefix) as [[m [Hp [_ Hc]]]|[Hno [_ Hc]]].
  - apply descend_path in Hp. now rewrite Hp.
  - destruct (descend prefix (root t)) as [m|] eqn:E; [|exact Hc].
    apply descend_path in E. destruct (Hno _ E).
Qed.


(** The paths of a tree built by the constructor. *)
Lemma init_has_path (l : list string) (t : PrefixTree) (p : string) :
  __init__ (Some l) = Ok t ->
  has_path p (root t)
  = existsb (String.prefix p) l
    || match p with EmptyString => true | _ => false end.
Proof.
  simpl. intros Hi. rewrite (has_path_insert_all l _ _ p Hi).
  change (root empty_tree) with (new_node START_CHARACTER).
  now rewrite has_path_new_node.
Qed.

(** Such a tree is no higher than its longest string asks for. *)
Lemma init_height_le (l : list string) (t : PrefixTree) :
  __init__ (Some l) = Ok t -> height (root t) <= S (max_length l).
Proof.
  intros Hi. pose proof (wf_init (Some l) Hi) as Hwf.
  destruct (height_attained (root t) Hwf) as [p [m [Hp ->]]].
  apply le_n_S.
  assert (H : has_path p (root t) = true) by (apply has_path_path; eauto).
  rewrite (init_has_path l t p Hi) in H. apply orb_true_iff in H as [H|H].
  - apply existsb_exists in H as [q [Hq Hpq]].
    apply prefix_length in Hpq. pose proof (max_length_ge l q Hq). lia.
  - destruct p; [simpl; lia | discriminate].
Qed.

(** ** The demonstration *)







Set Implicit Arguments.

(** * The properties *)

(** C1: for every tree and every string [s], [insert s] returns, and in the
    tree it leaves [contains s] is true; with [b] the answer of [contains s]
    before the call, [size] is unchanged when [b] is true and has grown by
    exactly 1 when [b] is false. *)
Theorem insert_contains_size (t : PrefixTree) (s : string) :
  exists t' b,
    insert t s = Ok t' /\
    contains t s = Ok b /\
    contains t' s = Ok true /\
    size t' = (if b then size t else size t + 1).
Proof.
  destruct (insert_eq t s) as [root' [Hi Ht]].
  exists (mkTree root' (if accepts s (root t) then size t else size t + 1)),
         (accepts s (root t)).
  repeat split; [exact Ht | apply contains_accepts |].
  rewrite contains_accepts. simpl.
  now rewrite (accepts_insert_loop _ _ s Hi), String.eqb_refl.
Qed.

(** C2: [contains s] is true exactly when [s] has a full path from the root
    and the node the path ends at is terminal, and false otherwise.  So in a
    tree built from a list of strings the stored strings are those of the
    list: a strict prefix of one of them that is not in the list is not
    contained.  In the tree built from "ABC", "ABD", "A", "XYZ",
    [contains "AB"] is false and [contains "A"] is true. *)
Theorem contains_iff_terminal_path :
  (forall t s,
      (contains t s = Ok true <->
       exists m, path (root t) s m /\ is_terminal m = true) /\
      (contains t s = Ok false <->
       ~ exists m, path (root t) s m /\ is_terminal m = true)) /\
  (forall l q,
      exists t, __init__ (Some l) = Ok t /\
                (contains t q = Ok true <-> In q l) /\
                (contains t q = Ok false <-> ~ In q l)) /\
  (__init__ (Some ["ABC"; "ABD"; "A"; "XYZ"]%string) = Ok demo_tree /\
   contains demo_tree "AB" = Ok false /\
   contains demo_tree "A" = Ok true).
Proof.
  split; [|split].
  - intros t s. rewrite contains_accepts. unfold is_terminal.
    rewrite <- accepts_path.
    destruct (accepts s (root t)); split; split; congruence.
  - intros l q. simpl. destruct (insert_all_returns l empty_tree) as [t Ht].
    exists t. split; [exact Ht|].
    rewrite contains_accepts, (accepts_insert_all _ _ q Ht).
    change (root empty_tree) with (new_node START_CHARACTER).
    rewrite accepts_new_node, orb_false_r, <- existsb_eqb_In.
    destruct (existsb (String.eqb q) l); split; split; congruence.
  - repeat split.
Qed.

(** C4: [_find_node s] returns a node and a depth; the depth is at most the
    length of [s], and it is the length of [s] exactly when every character
    of [s] has a matching child edge along the walk from the root.  The node
    is the one the first [depth] characters of [s] lead to.  For the empty
    string the result is the root and depth 0. *)
Theorem find_node_depth (t : PrefixTree) (s : string) :
  exists node depth,
    _find_node t s = Ok (node, depth) /\
    depth <= String.length s /\
    (depth = String.length s <-> exists m, path (root t) s m) /\
    path (root t) (substring 0 depth s) node /\
    _find_node t "" = Ok (root t, 0).
Proof.
  rewrite find_node_loop.
  destruct (find_loop_spec s (root t) 0) as [m [p [r [-> [Hf [Hp Hr]]]]]].
  simpl in Hf. exists m, (String.length p). rewrite Hf, append_length.
  assert (Hsub : substring 0 (String.length p) (p ++ r) = p).
  { clear. induction p as [|c p IH]; simpl; [now destruct r | now rewrite IH]. }
  rewrite Hsub. repeat split; try lia; try exact Hp.
  - intros Hlen. exists m. destruct r; [|simpl in Hlen; lia].
    now rewrite append_nil_r.
  - intros [m' Hm']. destruct Hr as [->|[c [r' [-> Hl]]]]; [simpl; lia|].
    apply path_split in Hm' as [x [Hx H]].
    rewrite (path_functional Hx Hp) in H. inversion H; subst. congruence.
Qed.

(** C3: in a well-formed tree (every children dictionary has each key once)
    [complete prefix] returns a list without duplicates whose members are
    exactly the stored strings that start with [prefix]; when the depth
    [_find_node] matched is less than the length of [prefix], the list is
    empty. *)
Theorem complete_exact (t : PrefixTree) (prefix : string) :
  wf_tree t = true ->
  exists l,
    complete t prefix = Ok l /\
    NoDup l /\
    (forall s, In s l <->
               contains t s = Ok true /\ String.prefix prefix s = true) /\
    (forall node depth,
        _find_node t prefix = Ok (node, depth) ->
        depth < String.length prefix -> l = []).
Proof.
  intros Hwf.
  destruct (complete_spec t prefix) as [[m [Hp [Hf Hc]]]|[Hno [_ Hc]]].
  - exists (words m prefix). split; [exact Hc|]. split; [|split].
    + apply words_NoDup. exact (wf_path Hwf Hp).
    + intros s. now apply words_stored.
    + intros node depth Hf'. rewrite Hf in Hf'. injection Hf' as _ <-. lia.
  - exists []. split; [exact Hc|]. split; [constructor|]. split; [|reflexivity].
    intros s. split; [contradiction|]. intros [Ha Hpre].
    apply contains_true, accepts_path in Ha as [m [Hm _]].
    apply prefix_inv in Hpre as [r ->].
    apply path_split in Hm as [x [Hx _]]. exact (Hno _ Hx).
Qed.

Lemma complete_exact_witness :
  wf_tree demo_tree = true /\
  exists l,
    complete demo_tree "AB" = Ok l /\
    NoDup l /\
    (forall s, In s l <->
               contains demo_tree s = Ok true /\ String.prefix "AB" s = true) /\
    (forall node depth,
        _find_node demo_tree "AB" = Ok (node, depth) ->
        depth < String.length "AB" -> l = []).
Proof.
  split; [reflexivity | apply (complete_exact demo_tree "AB"); reflexivity].
Defined.

(** C5: [strings()] returns the same list as [complete('')]; in a
    well-formed tree this list has no duplicates and its members are exactly
    the stored strings, so a stored string occurs in it exactly once and any
    other string not at all. *)
Theorem strings_complete_empty (t : PrefixTree) :
  complete t "" = Ok (strings t) /\
  (wf_tree t = true ->
   NoDup (strings t) /\
   (forall s, In s (strings t) <-> contains t s = Ok true) /\
   (forall s, exists b,
         contains t s = Ok b /\
         count_occ string_dec (strings t) s = if b then 1 else 0)).
Proof.
  assert (Hc : complete t "" = Ok (strings t)).
  { unfold complete, strings. rewrite find_node_loop. reflexivity. }
  split; [exact Hc|]. intros Hwf.
  assert (Hnd : NoDup (strings t)).
  { rewrite strings_words. now apply words_NoDup. }
  assert (Hin : forall s, In s (strings t) <-> contains t s = Ok true).
  { intros s. rewrite strings_words, (words_stored t s Hwf (path_here (root t))).
    simpl. destruct s; tauto. }
  split; [exact Hnd|]. split; [exact Hin|].
  intros s. exists (accepts s (root t)). split; [apply contains_accepts|].
  destruct (accepts s (root t)) eqn:E.
  - apply NoDup_count_occ'; [exact Hnd|]. now apply Hin, contains_true.
  - apply count_occ_not_In. rewrite Hin, contains_true. congruence.
Qed.

Lemma strings_complete_empty_witness :
  complete demo_tree "" = Ok (strings demo_tree) /\
  NoDup (strings demo_tree) /\
  (forall s, In s (strings demo_tree) <-> contains demo_tree s = Ok true) /\
  (forall s, exists b,
        contains demo_tree s = Ok b /\
        count_occ string_dec (strings demo_tree) s = if b then 1 else 0).
Proof.
  split;
    [exact (proj1 (strings_complete_empty demo_tree))
    | exact (proj2 (strings_complete_empty demo_tree) eq_refl)].
Defined.

(** C6: inserting [s] a second time changes nothing: the second [insert]
    returns the very tree the first one returned, so [size] and the results
    of [contains], [complete] and [strings] are those after one insertion. *)
Theorem insert_idempotent (t : PrefixTree) (s : string) :
  exists t1 t2,
    insert t s = Ok t1 /\
    insert t1 s = Ok t2 /\
    t2 = t1 /\
    size t2 = size t1 /\
    (forall q, contains t2 q = contains t1 q) /\
    (forall p, complete t2 p = complete t1 p) /\
    strings t2 = strings t1.
Proof.
  destruct (insert_eq t s) as [root1 [Hi Ht]].
  set (t1 := mkTree root1 (if accepts s (root t) then size t else size t + 1)) in *.
  assert (H2 : insert t1 s = Ok t1).
  { destruct (insert_eq t1 s) as [root2 [Hi2 Ht2]]. rewrite Ht2.
    simpl in Hi2. rewrite (insert_loop_again _ _ Hi) in Hi2.
    injection Hi2 as <-. simpl.
    now rewrite (accepts_insert_loop _ _ s Hi), String.eqb_refl. }
  exists t1, t1. repeat split; assumption.
Qed.

(** C7: a tree always has a root node.  The root of a new tree is not
    terminal; [insert s] leaves the root's terminal flag (and its sentinel
    character) as it was when [s] is not empty and sets the flag when [s] is
    the empty string, after which [contains('')] is true; so the root of a
    tree built from a list of strings is terminal exactly when the empty
    string is in the list, and [contains('')] always answers with the root's
    flag.  The other public methods, [contains], [complete], [strings] and
    [is_empty], leave the flag of the root object as it is. *)
Theorem root_terminal_invariant :
  (__init__ None = Ok empty_tree /\
   terminal (root empty_tree) = false /\
   character (root empty_tree) = START_CHARACTER) /\
  (forall t s, exists t',
        insert t s = Ok t' /\
        terminal (root t') = terminal (root t) || String.eqb s "" /\
        character (root t') = character (root t)) /\
  (forall t, exists t',
        insert t "" = Ok t' /\
        terminal (root t') = true /\
        contains t' "" = Ok true) /\
  (forall l, exists t,
        __init__ (Some l) = Ok t /\
        (terminal (root t) = true <-> In ""%string l)) /\
  (forall t, contains t "" = Ok (terminal (root t))) /\
  (forall st s fuel,
      Store.root_terminal (snd (Store.contains s st)) = Store.root_terminal st /\
      Store.root_terminal (snd (Store.complete fuel s st)) = Store.root_terminal st /\
      Store.root_terminal (snd (Store.strings fuel st)) = Store.root_terminal st /\
      Store.root_terminal (snd (Store.is_empty st)) = Store.root_terminal st).
Proof.
  split; [repeat split|]. split; [|split; [|split; [|split]]].
  - intros t s. destruct (insert_eq t s) as [root' [Hi ->]].
    eexists. split; [reflexivity|]. simpl. now apply terminal_insert_loop.
  - intros t. destruct (insert_eq t "") as [root' [Hi ->]].
    eexists. split; [reflexivity|]. rewrite contains_accepts. simpl.
    simpl in Hi. injection Hi as <-. split; reflexivity.
  - intros l. simpl. destruct (insert_all_returns l empty_tree) as [t Ht].
    exists t. split; [exact Ht|].
    pose proof (accepts_insert_all _ _ "" Ht) as H.
    change (accepts "" (root t)) with (terminal (root t)) in H.
    change (accepts "" (root empty_tree)) with false in H.
    rewrite H, orb_false_r. apply existsb_eqb_In.
  - intros t. apply contains_accepts.
  - intros st s fuel.
    rewrite (frames_contains s st), (frames_complete fuel s st),
      (frames_strings fuel st), (frames_is_empty st).
    repeat split.
Qed.

(** C8: [insert] and [_find_node] ask [get_child(c)] of a node only in the
    branch where [has_child(c)] was true of that node, and there [get_child]
    returns; so no lookup error comes out of [_find_node], [insert],
    [contains], [complete] or the constructor, whatever the tree and the
    string ([strings] calls no accessor that can fail).  The same holds of
    the methods run on a store, whatever the state: [_find_node], [contains]
    and [insert] return, and [complete] and [strings] return or run out of
    fuel. *)
Theorem lookup_never_fails :
  (forall c node,
      has_child c node = true -> exists child, get_child c node = Ok child) /\
  (forall t s,
      (exists node depth, _find_node t s = Ok (node, depth)) /\
      (exists t', insert t s = Ok t') /\
      (exists b, contains t s = Ok b) /\
      (exists l, complete t s = Ok l)) /\
  (forall strings, exists t, __init__ strings = Ok t) /\
  (forall st s,
      (exists node depth, Store._find_node s st = (Ok (node, depth), st)) /\
      (exists st', Store.insert s st = (Ok tt, st')) /\
      (exists b, Store.contains s st = (Ok b, st))) /\
  (forall st s fuel c,
      fst (Store.complete fuel s st) <> Raise (LookupError c) /\
      fst (Store.strings fuel st) <> Raise (LookupError c)).
Proof.
  split; [|split; [|split; [|split]]].
  - intros c node H. destruct (has_child_get_child _ _ H) as [child [Hg _]].
    now exists child.
  - intros t s. split; [apply find_node_returns|]. split; [|split].
    + destruct (insert_eq t s) as [root' [_ H]]. eauto.
    + rewrite contains_accepts. eauto.
    + destruct (complete_spec t s) as [[m [_ [_ H]]]|[_ [_ H]]]; eauto.
  - intros [l|]; simpl; [apply insert_all_returns | eauto].
  - intros st s. split; [apply store_find_node_returns|].
    split; [apply store_insert_returns | apply store_contains_returns].
  - intros st s fuel c. split.
    + destruct (store_complete_outcome fuel s st) as [[l ->]| ->]; discriminate.
    + destruct (store_strings_outcome fuel st) as [[l ->]| ->]; discriminate.
Qed.

(** C9: in a well-formed tree the list [complete prefix] returns has every
    string before each of its proper extensions: two stored strings that
    start with [prefix], one a proper prefix of the other, are found at
    positions [i < j], and no occurrence of a string comes after one of a
    proper extension.  If [prefix] itself is stored it is the first element.
    The same order holds in [strings()]. *)
Theorem complete_lists_prefix_first (t : PrefixTree) (prefix : string) :
  wf_tree t = true ->
  exists l,
    complete t prefix = Ok l /\
    extensions_later l /\
    (forall s s',
        contains t s = Ok true -> contains t s' = Ok true ->
        String.prefix prefix s = true -> proper_prefix s s' ->
        exists i j,
          nth_error l i = Some s /\ nth_error l j = Some s' /\ i < j) /\
    (contains t prefix = Ok true -> nth_error l 0 = Some prefix) /\
    extensions_later (strings t).
Proof.
  intros Hwf.
  assert (Hs : extensions_later (strings t)).
  { rewrite strings_words. now apply words_extensions_later. }
  destruct (complete_spec t prefix) as [[m [Hp [Hf Hc]]]|[Hno [_ Hc]]].
  - exists (words m prefix). split; [exact Hc|].
    assert (Hl : extensions_later (words m prefix)).
    { apply words_extensions_later. exact (wf_path Hwf Hp). }
    split; [exact Hl|]. split; [|split; [|exact Hs]].
    + intros s s' Hcs Hcs' Hpre Hpp.
      assert (Hin : In s (words m prefix)) by now apply (words_stored t s Hwf Hp).
      assert (Hin' : In s' (words m prefix)).
      { apply (words_stored t s' Hwf Hp). split; [exact Hcs'|].
        exact (proper_prefix_trans_l _ Hpre Hpp). }
      apply In_nth_error in Hin as [i Hi]. apply In_nth_error in Hin' as [j Hj].
      exists i, j. repeat split; try assumption. exact (Hl _ _ _ _ Hi Hj Hpp).
    + intros Ha. apply contains_true in Ha.
      rewrite <- (append_nil_r prefix) in Ha at 1.
      rewrite (accepts_append _ Hp) in Ha.
      destruct m as [ch term kids]. simpl in *. now subst term.
  - exists []. split; [exact Hc|].
    assert (Hnone : forall s, contains t s = Ok true ->
                              String.prefix prefix s = true -> False).
    { intros s Ha Hpre. apply contains_true, accepts_path in Ha as [m [Hm _]].
      apply prefix_inv in Hpre as [r ->].
      apply path_split in Hm as [x [Hx _]]. exact (Hno _ Hx). }
    split; [intros [|i] j s s' Hi; discriminate|].
    split; [|split; [|exact Hs]].
    + intros s s' Hcs _ Hpre _. destruct (Hnone _ Hcs Hpre).
    + intros Ha. destruct (Hnone _ Ha (prefix_refl prefix)).
Qed.

Lemma complete_lists_prefix_first_witness :
  wf_tree demo_tree = true /\
  exists l,
    complete demo_tree "A" = Ok l /\
    extensions_later l /\
    (forall s s',
        contains demo_tree s = Ok true -> contains demo_tree s' = Ok true ->
        String.prefix "A" s = true -> proper_prefix s s' ->
        exists i j,
          nth_error l i = Some s /\ nth_error l j = Some s' /\ i < j) /\
    (contains demo_tree "A" = Ok true -> nth_error l 0 = Some "A"%string) /\
    extensions_later (strings demo_tree).
Proof.
  split;
    [reflexivity | apply (complete_lists_prefix_first demo_tree "A"); reflexivity].
Defined.

(** C10: [contains], [complete], [strings] and [is_empty] (and [_find_node],
    which the first two call) change nothing: whatever the store, the
    arguments and the outcome, the state after the call is the state before
    it, that is every node object with its children and its terminal flag,
    the root reference and [size].  [insert] is not of this kind: it changes
    the state of a new tree. *)
Theorem queries_leave_state (st : Store.state) (s : string) (fuel : nat) :
  snd (Store.contains s st) = st /\
  snd (Store.complete fuel s st) = st /\
  snd (Store.strings fuel st) = st /\
  snd (Store.is_empty st) = st /\
  snd (Store._find_node s st) = st /\
  snd (Store.insert "A" Store.empty_state) <> Store.empty_state.
Proof.
  repeat split.
  - apply frames_contains.
  - apply frames_complete.
  - apply frames_strings.
  - apply frames_is_empty.
  - apply frames_find_node.
  - discriminate.
Qed.

(** * Further properties *)

Unset Implicit Arguments.

(** X1: inserting a string that is already stored changes nothing at all:
    [insert] returns the tree it was given, node for node, with the same
    [size]. *)
Theorem insert_stored_noop (t : PrefixTree) (s : string) :
  contains t s = Ok true -> insert t s = Ok t.
Proof.
  intros H. apply contains_true in H.
  destruct (insert_eq t s) as [root' [Hi ->]].
  rewrite (insert_loop_stored _ _ H) in Hi. injection Hi as <-.
  rewrite H. now destruct t.
Qed.

Lemma insert_stored_noop_witness :
  contains demo_tree "ABD" = Ok true /\ insert demo_tree "ABD" = Ok demo_tree.
Proof.
  split; [reflexivity | apply (insert_stored_noop demo_tree "ABD"); reflexivity].
Defined.

(** X2: [insert s] changes the answer of [contains] for no string but [s]:
    what was stored stays stored, and nothing else than [s] becomes
    stored. *)
Theorem insert_keeps_others (t : PrefixTree) (s : string) :
  exists t',
    insert t s = Ok t' /\
    forall q, q <> s -> contains t' q = contains t q.
Proof.
  destruct (insert_eq t s) as [root' [Hi ->]]. eexists. split; [reflexivity|].
  intros q Hq. rewrite !contains_accepts. simpl.
  rewrite (accepts_insert_loop _ _ q Hi).
  apply String.eqb_neq in Hq. now rewrite Hq.
Qed.

(** X3: [insert s] of a string that was not stored puts [s] into the list
    [strings()] returns and leaves the other strings of the list in the
    order they had; of a stored string it leaves the list as it was. *)
Theorem strings_after_insert (t : PrefixTree) (s : string) :
  exists t' b,
    insert t s = Ok t' /\
    contains t s = Ok b /\
    if b then strings t' = strings t
    else exists l1 l2, strings t = l1 ++ l2 /\ strings t' = l1 ++ s :: l2.
Proof.
  destruct (insert_eq t s) as [root' [Hi Ht]].
  eexists. exists (accepts s (root t)).
  split; [exact Ht|]. split; [apply contains_accepts|].
  rewrite !strings_words. simpl.
  destruct (accepts s (root t)) eqn:Ha.
  - rewrite (insert_loop_stored _ _ Ha) in Hi. now injection Hi as <-.
  - exact (insert_loop_words s _ _ "" Ha Hi).
Qed.

(** X4: if [size] is the number of strings [strings()] lists, it still is
    after [insert]. *)
Theorem size_counts_after_insert (t : PrefixTree) (s : string) :
  size t = List.length (strings t) ->
  exists t', insert t s = Ok t' /\ size t' = List.length (strings t').
Proof.
  intros Hsz. destruct (insert_eq t s) as [root' [Hi Ht]].
  eexists. split; [exact Ht|]. rewrite !strings_words in *. simpl.
  destruct (accepts s (root t)) eqn:Ha.
  - rewrite (insert_loop_stored _ _ Ha) in Hi. now injection Hi as <-.
  - destruct (insert_loop_words s _ _ "" Ha Hi) as [l1 [l2 [H1 H2]]].
    rewrite H2, Hsz, H1, !length_app. simpl. lia.
Qed.

Lemma size_counts_after_insert_witness :
  size demo_tree = List.length (strings demo_tree) /\
  exists t', insert demo_tree "AB" = Ok t' /\ size t' = List.length (strings t').
Proof.
  split; [reflexivity | apply (size_counts_after_insert demo_tree "AB"); reflexivity].
Defined.

(** X5: the tree the constructor builds from a list of strings has as its
    [size] the number of different strings in the list, which is also the
    number of strings [strings()] returns. *)
Theorem init_size_counts_distinct (l : list string) :
  exists t,
    __init__ (Some l) = Ok t /\
    size t = List.length (nodup string_dec l) /\
    size t = List.length (strings t).
Proof.
  destruct (init_spec l) as [t [Hi [_ [Hsz [Hnd [Hmem _]]]]]].
  exists t. split; [exact Hi|]. split; [|exact Hsz].
  rewrite Hsz. apply Permutation_length, NoDup_Permutation.
  - exact Hnd.
  - apply NoDup_nodup.
  - intros q. rewrite nodup_In. apply Hmem.
Qed.

(** X6: a tree built by the constructor is empty, as [is_empty] tells,
    exactly when it was given no string (no list or an empty one), and
    exactly when [strings()] returns nothing. *)
Theorem is_empty_iff_nothing_inserted :
  (exists t, __init__ None = Ok t /\ is_empty t = true /\ strings t = []) /\
  (forall l, exists t,
        __init__ (Some l) = Ok t /\
        (is_empty t = true <-> l = []) /\
        (is_empty t = true <-> strings t = [])).
Proof.
  split; [exists empty_tree; repeat split|].
  intros l. destruct (init_spec l) as [t [Hi [_ [Hsz [_ [Hmem _]]]]]].
  exists t. split; [exact Hi|].
  assert (He : is_empty t = true <-> strings t = []).
  { unfold is_empty. rewrite Hsz. destruct (strings t); simpl; split; congruence. }
  split; [|exact He]. rewrite He. split.
  - intros H. destruct l as [|q l]; [reflexivity|].
    assert (Hq : In q (strings t)) by (apply Hmem; now left).
    rewrite H in Hq. contradiction.
  - intros ->. destruct (strings t) as [|q ss]; [reflexivity|].
    destruct (proj1 (Hmem q) (or_introl eq_refl)).
Qed.

(** X7: what a tree built by the constructor stores depends on which
    strings were given, not on their order or on repetitions: two lists with
    the same members give trees with the same [size], the same answers of
    [contains], and the same strings in [strings()], possibly in another
    order. *)
Theorem init_order_irrelevant (l l' : list string) :
  (forall q, In q l <-> In q l') ->
  exists t t',
    __init__ (Some l) = Ok t /\
    __init__ (Some l') = Ok t' /\
    size t = size t' /\
    (forall q, contains t q = contains t' q) /\
    Permutation (strings t) (strings t').
Proof.
  intros Hll.
  destruct (init_spec l) as [t [Hi [_ [Hsz [Hnd [Hmem Ha]]]]]].
  destruct (init_spec l') as [t' [Hi' [_ [Hsz' [Hnd' [Hmem' Ha']]]]]].
  exists t, t'. split; [exact Hi|]. split; [exact Hi'|].
  assert (Hp : Permutation (strings t) (strings t')).
  { apply NoDup_Permutation; try assumption.
    intros q. now rewrite Hmem, Hmem', Hll. }
  split; [rewrite Hsz, Hsz'; now apply Permutation_length|].
  split; [|exact Hp].
  intros q. rewrite !contains_accepts, Ha, Ha'. f_equal.
  destruct (existsb (String.eqb q) l) eqn:E, (existsb (String.eqb q) l') eqn:E';
    try reflexivity.
  - apply existsb_eqb_In, Hll, existsb_eqb_In in E. congruence.
  - apply existsb_eqb_In, Hll, existsb_eqb_In in E'. congruence.
Qed.

Lemma init_order_irrelevant_witness :
  (forall q, In q ["A"; "AB"]%string <-> In q ["AB"; "A"; "AB"]%string) /\
  exists t t',
    __init__ (Some ["A"; "AB"]%string) = Ok t /\
    __init__ (Some ["AB"; "A"; "AB"]%string) = Ok t' /\
    size t = size t' /\
    (forall q, contains t q = contains t' q) /\
    Permutation (strings t) (strings t').
Proof.
  assert (H : forall q, In q ["A"; "AB"]%string <-> In q ["AB"; "A"; "AB"]%string)
    by (intros q; simpl; tauto).
  split; [exact H | exact (init_order_irrelevant _ _ H)].
Defined.

(** X8: the node [_find_node] returns belongs to the longest prefix of the
    string that has a path: the first [k] characters of the string have a
    path from the root exactly when [k] is at most the returned depth, and
    the path of the first [depth] characters ends at the returned node. *)
Theorem find_node_longest_prefix (t : PrefixTree) (s : string) :
  exists node depth,
    _find_node t s = Ok (node, depth) /\
    path (root t) (substring 0 depth s) node /\
    forall k, k <= String.length s ->
              ((exists m, path (root t) (substring 0 k s) m) <-> k <= depth).
Proof.
  rewrite find_node_loop.
  destruct (find_loop_spec s (root t) 0) as [m [p [r [-> [Hf [Hp Hr]]]]]].
  simpl in Hf. exists m, (String.length p). split; [exact Hf|].
  assert (Hsub : substring 0 (String.length p) (p ++ r) = p).
  { clear. induction p as [|c p IH]; simpl; [now destruct r | now rewrite IH]. }
  rewrite Hsub. split; [exact Hp|]. intros k Hk. split.
  - intros [m' Hm']. destruct (Nat.le_gt_cases k (String.length p)) as [|Hgt];
      [assumption|].
    destruct Hr as [->|[c [r' [-> Hl]]]].
    + rewrite append_length in Hk. simpl in Hk. lia.
    + destruct (substring_append_long k p c r' Hgt) as [r'' Hr''].
      rewrite Hr'' in Hm'. apply path_split in Hm' as [x [Hx H]].
      rewrite (path_functional Hx Hp) in H. inversion H; subst. congruence.
  - intros Hle. destruct (substring_append_short k p r Hle) as [p' Hp'].
    rewrite Hp' in Hp. apply path_split in Hp as [x [Hx _]]. now exists x.
Qed.

(** X9: in a well-formed tree [complete(prefix)] is the list [strings()]
    returns with the strings that do not start with [prefix] left out: the
    same strings in the same order. *)
Theorem complete_filters_strings (t : PrefixTree) (prefix : string) :
  wf_tree t = true ->
  complete t prefix = Ok (filter (String.prefix prefix) (strings t)).
Proof.
  intros Hwf. rewrite complete_descend, strings_words.
  pose proof (filter_words prefix (root t) "" Hwf) as H. simpl in H.
  now rewrite H.
Qed.

Lemma complete_filters_strings_witness :
  wf_tree demo_tree = true /\
  complete demo_tree "AB"
  = Ok (filter (String.prefix "AB") (strings demo_tree)).
Proof.
  split; [reflexivity | apply (complete_filters_strings demo_tree "AB"); reflexivity].
Defined.


(** X11: [insert s] adds one node to the tree for every character of [s]
    beyond the depth [_find_node s] matches before the call, and no other
    node. *)
Theorem insert_creates_nodes (t : PrefixTree) (s : string) :
  exists t' node depth,
    insert t s = Ok t' /\
    _find_node t s = Ok (node, depth) /\
    node_count (root t') = node_count (root t) + (String.length s - depth).
Proof.
  destruct (insert_eq t s) as [root' [Hi Ht]].
  destruct (find_node_returns t s) as [node [depth Hf]].
  eexists. exists node, depth. split; [exact Ht|]. split; [exact Hf|].
  rewrite find_node_loop in Hf.
  pose proof (insert_loop_count s _ _ _ _ _ Hi Hf) as H.
  destruct (find_loop_spec s (root t) 0) as [m [p [r [Hs [Hf' _]]]]].
  rewrite Hf in Hf'. injection Hf' as _ ->. subst s.
  rewrite append_length in *. simpl in *. lia.
Qed.

(** X12: in a tree built by the constructor, the strings that have a path
    from the root ([_find_node] matches them in full) are the empty string
    and the prefixes of the strings given: no branch is there that leads to
    no stored string. *)
Theorem init_paths_are_prefixes (l : list string) (p : string) :
  exists t,
    __init__ (Some l) = Ok t /\
    ((exists node, _find_node t p = Ok (node, String.length p)) <->
     p = ""%string \/ exists q, In q l /\ String.prefix p q = true).
Proof.
  simpl. destruct (insert_all_returns l empty_tree) as [t Ht].
  exists t. split; [exact Ht|].
  assert (Hp : (exists node, _find_node t p = Ok (node, String.length p))
               <-> has_path p (root t) = true).
  { rewrite has_path_path. split; intros [m Hm]; exists m.
    - now apply find_node_path.
    - rewrite find_node_loop. exact (find_loop_path 0 Hm). }
  rewrite Hp, (has_path_insert_all l _ _ p Ht), orb_true_iff, existsb_exists.
  change (root empty_tree) with (new_node START_CHARACTER).
  rewrite has_path_new_node. split.
  - intros [H|H]; [now right|]. destruct p; [now left | discriminate].
  - intros [->|H]; [now right | now left].
Qed.

(** X13: the height of a tree built by the constructor, counted in nodes
    on the longest way down from the root, is one more than the length of
    the longest string given. *)
Theorem init_height (l : list string) :
  exists t, __init__ (Some l) = Ok t /\ height (root t) = S (max_length l).
Proof.
  destruct (init_spec l) as [t [Hi _]]. exists t. split; [exact Hi|].
  apply Nat.le_antisymm; [exact (init_height_le l t Hi)|].
  assert (Hq : forall q, In q l -> S (String.length q) <= height (root t)).
  { intros q Hq.
    assert (H : has_path q (root t) = true).
    { rewrite (init_has_path l t q Hi). apply orb_true_iff. left.
      apply existsb_exists. exists q. split; [exact Hq | apply prefix_refl]. }
    apply has_path_path in H as [m Hm].
    pose proof (height_path_length _ _ _ Hm) as Hh.
    destruct m; simpl in Hh; lia. }
  destruct (height (root t)) as [|h] eqn:Eh.
  - destruct (root t); discriminate.
  - apply le_n_S, max_length_le. intros q Hin. specialize (Hq q Hin). lia.
Qed.

(** X14: the methods run on objects, as the source runs them.  After the
    constructor has inserted a list of strings, [size] is the number of
    different strings of the list; [contains] tells whether a string is in
    the list; with room for a recursion one deeper than the longest string,
    [strings()] returns the strings of the list, each once, and
    [complete(q)] those of them that start with [q], in the same order;
    [is_empty] tells whether the list was empty.  None of the queries
    changes the state. *)
Theorem store_init_end_to_end (l : list string) (q : string) (fuel : nat) :
  max_length l < fuel ->
  exists st ss,
    Store.__init__ (Some l) = (Ok tt, st) /\
    Store.size st = List.length (nodup string_dec l) /\
    Store.contains q st = (Ok (existsb (String.eqb q) l), st) /\
    Store.strings fuel st = (Ok ss, st) /\
    NoDup ss /\
    (forall x, In x ss <-> In x l) /\
    Store.complete fuel q st = (Ok (filter (String.prefix q) ss), st) /\
    Store.is_empty st = (Ok (match l with [] => true | _ => false end), st).
Proof.
  intros Hfuel.
  destruct (init_agree (Some l)) as [st [rt [t [Hs [Ht [_ [_ [Hsz Hrep]]]]]]]].
  destruct (init_spec l) as [t0 [Ht0 [Hwf [Hcnt [Hnd [Hmem Ha]]]]]].
  rewrite Ht in Ht0. injection Ht0 as <-.
  assert (Hn : size t = List.length (nodup string_dec l)).
  { rewrite Hcnt. apply Permutation_length, NoDup_Permutation;
      [exact Hnd | apply NoDup_nodup |].
    intros x. rewrite nodup_In. apply Hmem. }
  pose proof (init_height_le l t Ht) as Hh.
  assert (Hfl : height (root t) <= fuel) by lia.
  destruct (queries_agree q Hrep Hfl) as [Hc [Hco [Hst He]]].
  exists st, (strings t). split; [exact Hs|]. split; [congruence|].
  split; [|split; [|split; [exact Hnd|split; [exact Hmem|split]]]].
  - rewrite (surjective_pairing (Store.contains q st)), Hc,
      (frames_contains q st), contains_accepts. now rewrite Ha.
  - now rewrite (surjective_pairing (Store.strings fuel st)), Hst,
      (frames_strings fuel st).
  - rewrite (surjective_pairing (Store.complete fuel q st)), Hco,
      (frames_complete fuel q st).
    rewrite complete_descend, strings_words.
    pose proof (filter_words q (root t) "" Hwf) as Hfw. simpl in Hfw.
    now rewrite Hfw.
  - rewrite (surjective_pairing (Store.is_empty st)), He,
      (frames_is_empty st). f_equal. f_equal. unfold is_empty.
    rewrite Hcnt. destruct l as [|x l].
    + destruct (strings t) as [|y ss]; [reflexivity|].
      destruct (proj1 (Hmem y) (or_introl eq_refl)).
    + assert (Hx : In x (strings t)) by (apply Hmem; now left).
      destruct (strings t); [contradiction | reflexivity].
Qed.

Lemma store_init_end_to_end_witness :
  max_length ["ABC"; "ABD"; "A"; "XYZ"]%string < 4 /\
  exists st ss,
    Store.__init__ (Some ["ABC"; "ABD"; "A"; "XYZ"]%string) = (Ok tt, st) /\
    Store.size st
    = List.length (nodup string_dec ["ABC"; "ABD"; "A"; "XYZ"]%string) /\
    Store.contains "AB" st
    = (Ok (existsb (String.eqb "AB") ["ABC"; "ABD"; "A"; "XYZ"]%string), st) /\
    Store.strings 4 st = (Ok ss, st) /\
    NoDup ss /\
    (forall x, In x ss <-> In x ["ABC"; "ABD"; "A"; "XYZ"]%string) /\
    Store.complete 4 "AB" st = (Ok (filter (String.prefix "AB") ss), st) /\
    Store.is_empty st = (Ok false, st).
Proof.
  split; [vm_compute; lia|].
  apply (store_init_end_to_end ["ABC"; "ABD"; "A"; "XYZ"]%string "AB" 4).
  vm_compute. lia.
Defined.

(** X15: what [insert] never does to the store: it never rebinds
    [self.root], never lowers [size] nor raises it by more than 1, never
    removes a node object, never changes a node's character, never clears a
    terminal flag, and never removes or changes an entry of a children
    dictionary (new entries come after the old ones). *)
Theorem store_insert_never_removes (st : Store.state) (s : string) :
  heap_le (Store.heap st) (Store.heap (snd (Store.insert s st))) /\
  Store.root (snd (Store.insert s st)) = Store.root st /\
  Store.size st <= Store.size (snd (Store.insert s st)) <= Store.size st + 1.
Proof.
  rewrite store_insert_eq.
  destruct (store_contains_returns s st) as [b ->].
  unfold insert_walk, Store.bind.
  destruct (insert_loop_grows s (Store.root st) st) as [Hh [Hr Hs]].
  destruct (Store.insert_loop s (Store.root st) st) as [[node|e] st1];
    simpl in Hh, Hr, Hs.
  - unfold Store.set_terminal, Store.bind. simpl.
    assert (Hh' : heap_le (Store.heap st)
              (Store.update node
                 (Store.mkObject
                    (Store.character (nth node (Store.heap st1) Store.blank)) true
                    (Store.children (nth node (Store.heap st1) Store.blank)))
                 (Store.heap st1))).
    { eapply heap_le_trans; [exact Hh|]. apply heap_le_update.
      repeat split; auto. exists []. simpl. now rewrite app_nil_r. }
    destruct b; simpl; (split; [exact Hh' | split; [exact Hr | lia]]).
  - simpl. split; [exact Hh | split; [exact Hr | lia]].
Qed.

(** X16: the methods on objects, with their loops that walk down through
    references and change objects in place, compute what the functions on
    trees compute.  If the state holds the tree [t] with each node in an
    object of its own ([rt] tells where), then inserting a list of strings
    into the store returns without exception and leaves a state that holds,
    again each node in its own object, the tree that the same insertions
    into [t] return, with the same [size]; and on that state [contains]
    answers as on the tree, as do [complete] and [strings] when the
    recursion may go as deep as the tree is high. *)
Theorem store_refines (st : Store.state) (rt : rtree) (t : PrefixTree)
  (l : list string) (q : string) (fuel : nat) :
  layout st rt -> erase rt = root t -> Store.size st = size t ->
  exists st' rt' t',
    Store.insert_all l st = (Ok tt, st') /\
    insert_all t l = Ok t' /\
    layout st' rt' /\ erase rt' = root t' /\ Store.size st' = size t' /\
    fst (Store.contains q st') = contains t' q /\
    (height (root t') <= fuel ->
     fst (Store.complete fuel q st') = complete t' q /\
     fst (Store.strings fuel st') = Ok (strings t')).
Proof.
  intros Hlay He Hs.
  destruct (insert_all_agree l t Hlay He Hs)
    as [st' [rt' [t' [Hrun [Hins [Hlay' [He' Hs']]]]]]].
  exists st', rt', t'.
  pose proof (layout_represents t' Hlay' He' Hs') as Hrep.
  refine (conj Hrun (conj Hins (conj Hlay' (conj He' (conj Hs' (conj _ _)))))).
  - exact (proj1 (queries_agree q Hrep (le_n _))).
  - intros Hfuel.
    destruct (queries_agree q Hrep Hfuel) as [_ [Hc [Hst _]]]. auto.
Qed.

Lemma store_refines_witness :
  layout Store.empty_state (RNode 0 START_CHARACTER false []) /\
  erase (RNode 0 START_CHARACTER false []) = root empty_tree /\
  Store.size Store.empty_state = size empty_tree /\
  exists st' rt' t',
    Store.insert_all ["AB"; "A"]%string Store.empty_state = (Ok tt, st') /\
    insert_all empty_tree ["AB"; "A"]%string = Ok t' /\
    layout st' rt' /\ erase rt' = root t' /\ Store.size st' = size t' /\
    fst (Store.contains "A" st') = contains t' "A" /\
    (height (root t') <= 3 ->
     fst (Store.complete 3 "A" st') = complete t' "A" /\
     fst (Store.strings 3 st') = Ok (strings t')).
Proof.
  assert (H0 : layout Store.empty_state (RNode 0 START_CHARACTER false [])).
  { split; [|split; [|reflexivity]].
    - simpl. split; [reflexivity | exact I].
    - simpl. repeat constructor. simpl. tauto. }
  split; [exact H0|]. split; [reflexivity|]. split; [reflexivity|].
  exact (store_refines Store.empty_state _ empty_tree ["AB"; "A"]%string "A" 3
           H0 eq_refl eq_refl).
Defined.

